(** * TimeLeapMemo: homeostatic forgetting, virtual time and world lines

    A shallow embedding of [TimeLeapMemo.py] (classes [Stroke], [GLCanvas],
    [TimelineWidget] and the parts of [MainWindow] that write the canvas),
    followed by the properties of the specification that were checked
    against it.

    Modelling conventions.
    - Python floats (and the few ints that are mixed with them) are real
      numbers: [math.exp] is [exp], [math.hypot] is the Euclidean norm,
      [abs] is [Rabs].  Rounding, infinities and NaN are not represented.
    - An exception is a value of [exn]; a method that can raise returns an
      [outcome], which carries the object as the exception leaves it.
    - The GPU rasteriser and the [json] text codec belong to libraries, not
      to this program: the first is a parameter of [paintEvent], the second
      is represented by the document tree a string stands for.
    - The record fields follow the type annotations of the dataclass; a
      JSON value of another shape read into such a field is a [TypeError]
      at the read. *)

From Stdlib Require Import String Reals Lra Lia Bool Arith ZArith List.
Import ListNotations.
Open Scope R_scope.

(** ** Python preliminaries *)

Inductive exn : Type :=
| JSONDecodeError
| AttributeError
| KeyError
| TypeError
| ZeroDivisionError.

(** A computation that returns a value or raises. *)
Definition result (A : Type) : Type := (exn + A)%type.

Definition ret {A : Type} (a : A) : result A := inr a.
Definition raise {A : Type} (e : exn) : result A := inl e.

Definition bind {A B : Type} (m : result A) (k : A -> result B) : result B :=
  match m with
  | inl e => inl e
  | inr a => k a
  end.

Notation "x <- m ;; k" := (bind m (fun x => k))
  (at level 61, m at next level, right associativity).

(** [[f(x) for x in xs]] where [f] may raise: left to right, first
    exception wins. *)
Fixpoint mapM {A B : Type} (f : A -> result B) (xs : list A) : result (list B) :=
  match xs with
  | [] => ret []
  | x :: xs' => y <- f x ;; ys <- mapM f xs' ;; ret (y :: ys)
  end.

(** Two-argument [max(a, b)] and [min(a, b)]: the first argument is kept
    unless the second is strictly better. *)
Definition py_max (a b : R) : R := if Rlt_dec a b then b else a.
Definition py_min (a b : R) : R := if Rlt_dec b a then b else a.

(** [max(xs, default=d)]: the default is used for the empty list only. *)
Definition py_max_list (xs : list R) (default : R) : R :=
  match xs with
  | [] => default
  | x :: xs' => fold_left py_max xs' x
  end.

(** [x / n] for a float [x] and an int [n]. *)
Definition py_div (x : R) (n : Z) : result R :=
  if Z.eqb n 0 then raise ZeroDivisionError else ret (x / IZR n).

(** [np.clip(x, lo, hi)] on one cell. *)
Definition np_clip (lo hi x : R) : R := Rmin (Rmax x lo) hi.

(** [np.mean] of a flattened array. *)
Definition np_mean (arr : list R) : R :=
  fold_right Rplus 0 arr / INR (length arr).

(** ** Data model for strokes *)

Definition point : Type := (R * R * R)%type.

Record Stroke : Type := mkStroke {
  points : list point;          (* (x, y, pressure) *)
  width : R;
  color : R * R * R;
  time_created : R;
  base_alpha : R;               (* default 1.0 *)
  is_visible : bool             (* default True *)
}.

Definition set_base_alpha (a : R) (s : Stroke) : Stroke :=
  mkStroke (points s) (width s) (color s) (time_created s) a (is_visible s).

Definition set_is_visible (b : bool) (s : Stroke) : Stroke :=
  mkStroke (points s) (width s) (color s) (time_created s) (base_alpha s) b.

(** ** The canvas *)

Record GLCanvas : Type := mkGLCanvas {
  strokes : list Stroke;
  current_points : list point;
  density_w : nat;
  density_h : nat;
  target_density : R;
  hysteresis : R;
  lambda_base : R;
  lambda_k : R;
  lambdas_factor : R;
  virtual_time : R;
  max_virtual_time : R;
  last_virtual_time : R;
  timer_active : bool           (* the QTimer that runs while drawing *)
}.

(** What a method call leaves behind. *)
Inductive outcome : Type :=
| Returned (c : GLCanvas)
| Raised (e : exn) (c : GLCanvas).

Definition state_of (o : outcome) : GLCanvas :=
  match o with
  | Returned c => c
  | Raised _ c => c
  end.

Section Setters.
Variable c : GLCanvas.

Definition set_strokes (v : list Stroke) : GLCanvas :=
  mkGLCanvas v (current_points c) (density_w c) (density_h c)
    (target_density c) (hysteresis c) (lambda_base c) (lambda_k c)
    (lambdas_factor c) (virtual_time c) (max_virtual_time c)
    (last_virtual_time c) (timer_active c).

Definition set_current_points (v : list point) : GLCanvas :=
  mkGLCanvas (strokes c) v (density_w c) (density_h c)
    (target_density c) (hysteresis c) (lambda_base c) (lambda_k c)
    (lambdas_factor c) (virtual_time c) (max_virtual_time c)
    (last_virtual_time c) (timer_active c).

Definition set_lambdas_factor (v : R) : GLCanvas :=
  mkGLCanvas (strokes c) (current_points c) (density_w c) (density_h c)
    (target_density c) (hysteresis c) (lambda_base c) (lambda_k c)
    v (virtual_time c) (max_virtual_time c)
    (last_virtual_time c) (timer_active c).

Definition set_virtual_time (v : R) : GLCanvas :=
  mkGLCanvas (strokes c) (current_points c) (density_w c) (density_h c)
    (target_density c) (hysteresis c) (lambda_base c) (lambda_k c)
    (lambdas_factor c) v (max_virtual_time c)
    (last_virtual_time c) (timer_active c).

Definition set_max_virtual_time (v : R) : GLCanvas :=
  mkGLCanvas (strokes c) (current_points c) (density_w c) (density_h c)
    (target_density c) (hysteresis c) (lambda_base c) (lambda_k c)
    (lambdas_factor c) (virtual_time c) v
    (last_virtual_time c) (timer_active c).

Definition set_last_virtual_time (v : R) : GLCanvas :=
  mkGLCanvas (strokes c) (current_points c) (density_w c) (density_h c)
    (target_density c) (hysteresis c) (lambda_base c) (lambda_k c)
    (lambdas_factor c) (virtual_time c) (max_virtual_time c)
    v (timer_active c).

Definition set_timer_active (v : bool) : GLCanvas :=
  mkGLCanvas (strokes c) (current_points c) (density_w c) (density_h c)
    (target_density c) (hysteresis c) (lambda_base c) (lambda_k c)
    (lambdas_factor c) (virtual_time c) (max_virtual_time c)
    (last_virtual_time c) v.
End Setters.

(** [GLCanvas.__init__(density_w, density_h)]. *)
Definition GLCanvas_init (dw dh : nat) : GLCanvas :=
  mkGLCanvas [] [] dw dh 0.05 0.02 0.1 3.0 1.0 0.0 0.0 0.0 false.

(** [advance_virtual_time]: one tick of the drawing timer. *)
Definition advance_virtual_time (c : GLCanvas) : GLCanvas :=
  set_virtual_time c (virtual_time c + 0.033).

(** [mousePressEvent]; [lb] is [e.button() == LeftButton]. *)
Definition mousePressEvent (lb : bool) (x y : R) (c : GLCanvas) : GLCanvas :=
  if lb then set_timer_active (set_current_points c [(x, y, 1.0)]) true
  else c.

(** [mouseMoveEvent]; [lb] is [e.buttons() & LeftButton]. *)
Definition mouseMoveEvent (lb : bool) (x y : R) (c : GLCanvas) : GLCanvas :=
  if lb then set_current_points c (current_points c ++ [(x, y, 1.0)])
  else c.

(** [mouseReleaseEvent]. *)
Definition mouseReleaseEvent (lb : bool) (c : GLCanvas) : GLCanvas :=
  if lb && (2 <=? length (current_points c))%nat then
    let s := mkStroke (current_points c) 6.0 (0, 0, 0) (virtual_time c)
                      1.0 true in
    let c1 := set_strokes c (strokes c ++ [s]) in
    let c2 := set_current_points c1 [] in
    let c3 := if Rlt_dec (max_virtual_time c2) (virtual_time c2)
              then set_max_virtual_time c2 (virtual_time c2) else c2 in
    set_timer_active c3 false
  else c.

(** [clear_all]. *)
Definition clear_all (c : GLCanvas) : GLCanvas :=
  set_last_virtual_time
    (set_max_virtual_time
       (set_virtual_time (set_current_points (set_strokes c []) []) 0.0)
       0.0)
    0.0.

(** ** Density map ([render_density_map]) *)

(** The rasteriser: the alpha channel of cell [i] of the density texture
    after the triangles [verts] were drawn into the cleared framebuffer. *)
Definition rasteriser : Type := list R -> nat -> R.

(** Body of the inner loop: the six vertices (twelve floats) of the quad of
    one segment, or nothing for a segment shorter than [1e-6]. *)
Definition segment_verts (s : Stroke) (cw ch : Z) (p0 p1 : point)
  : result (list R) :=
  let '(x0, y0, _) := p0 in
  let '(x1, y1, _) := p1 in
  let dx := x1 - x0 in
  let dy := y1 - y0 in
  let seg_len := sqrt (dx * dx + dy * dy) in
  if Rlt_dec seg_len 1e-6 then ret []
  else
    let nx := - dy / seg_len in
    let ny := dx / seg_len in
    let half_w := width s / 2.0 in
    u0 <- py_div x0 cw ;;
    t0 <- py_div y0 ch ;;
    let v0 := 1.0 - t0 in
    u1 <- py_div x1 cw ;;
    t1 <- py_div y1 ch ;;
    let v1 := 1.0 - t1 in
    let ndc0 := (u0 * 2 - 1, v0 * 2 - 1) in
    let ndc1 := (u1 * 2 - 1, v1 * 2 - 1) in
    qx <- py_div half_w cw ;;
    let hwx := qx * 2 in
    qy <- py_div half_w ch ;;
    let hwy := qy * 2 in
    let off := (nx * hwx, ny * hwy) in
    let v0a := (fst ndc0 + fst off, snd ndc0 + snd off) in
    let v0b := (fst ndc0 - fst off, snd ndc0 - snd off) in
    let v1a := (fst ndc1 + fst off, snd ndc1 + snd off) in
    let v1b := (fst ndc1 - fst off, snd ndc1 - snd off) in
    ret [fst v0a; snd v0a; fst v1a; snd v1a; fst v0b; snd v0b;
         fst v1a; snd v1a; fst v1b; snd v1b; fst v0b; snd v0b].

(** [for i in range(len(s.points) - 1)]: consecutive pairs. *)
Fixpoint stroke_verts (s : Stroke) (cw ch : Z) (pts : list point)
  : result (list R) :=
  match pts with
  | p0 :: ((p1 :: _) as rest) =>
      q <- segment_verts s cw ch p0 p1 ;;
      r <- stroke_verts s cw ch rest ;;
      ret (q ++ r)
  | _ => ret []
  end.

(** The pre-filter at the head of the outer loop. *)
Definition rasterised (now : R) (s : Stroke) : bool :=
  if negb (is_visible s) then false
  else if Rlt_dec now (time_created s) then false
  else if (length (points s) <? 2)%nat then false
  else true.

Fixpoint all_verts (now : R) (cw ch : Z) (ss : list Stroke) : result (list R) :=
  match ss with
  | [] => ret []
  | s :: ss' =>
      if rasterised now s then
        q <- stroke_verts s cw ch (points s) ;;
        r <- all_verts now cw ch ss' ;;
        ret (q ++ r)
      else all_verts now cw ch ss'
  end.

(** [render_density_map]: [None] when there is nothing to draw, else the
    clipped alpha channel of the [density_h * density_w] cells. *)
Definition render_density_map (gpu : rasteriser) (cw ch : Z) (c : GLCanvas)
  : result (option (list R)) :=
  verts <- all_verts (virtual_time c) cw ch (strokes c) ;;
  match verts with
  | [] => ret None
  | _ :: _ =>
      let arr := map (gpu verts) (seq 0 (density_h c * density_w c)) in
      ret (Some (map (np_clip 0.0 1.0) arr))
  end.

(** ** The frame ([paintEvent], up to the assignment of
    [last_virtual_time]; the drawing that follows only reads the canvas) *)

(** Rewind detection. *)
Definition rewind_check (c : GLCanvas) : GLCanvas :=
  if Rlt_dec (virtual_time c) (last_virtual_time c)
  then set_strokes c (map (set_is_visible true) (strokes c))
  else c.

(** [global_density]. *)
Definition global_density (density : option (list R)) : R :=
  match density with
  | Some arr => np_mean arr
  | None => 0.0
  end.

(** The controller: from [error = ...] to the clamp. *)
Definition controller_update (gd : R) (c : GLCanvas) : GLCanvas :=
  let error := gd - target_density c in
  let gain := if Rlt_dec (Rabs error) (hysteresis c) then 0.0 else error in
  let c1 := set_lambdas_factor c (1.0 + lambda_k c * gain) in
  set_lambdas_factor c1 (py_max 0.1 (py_min 4.0 (lambdas_factor c1))).

(** Body of the decay loop for one stroke. *)
Definition decay_stroke (c : GLCanvas) (now : R) (s : Stroke) : Stroke :=
  if negb (is_visible s) then s
  else
    let age := now - time_created s in
    if Rlt_dec age 0 then set_base_alpha 0.0 s
    else
      let lam := lambda_base c * lambdas_factor c in
      let s1 := set_base_alpha (exp (- lam * age)) s in
      if Rlt_dec (base_alpha s1) 0.001
      then set_is_visible false (set_base_alpha 0.0 s1)
      else s1.

Definition paintEvent (gpu : rasteriser) (cw ch : Z) (c : GLCanvas) : outcome :=
  let c1 := rewind_check c in
  match render_density_map gpu cw ch c1 with
  | inl e => Raised e c1
  | inr density =>
      let c2 := controller_update (global_density density) c1 in
      let now := virtual_time c2 in
      let c3 := set_strokes c2 (map (decay_stroke c2 now) (strokes c2)) in
      Returned (set_last_virtual_time c3 now)
  end.

(** ** Snapshots ([export_strokes_json], [import_strokes_json]) *)

(** What [json.loads] returns: [JObj] is a [dict] (keys in document order,
    no key twice), [JArr] a [list], [JNum] an [int] or a [float]. *)
#[local] Unset Elimination Schemes.
Inductive json : Type :=
| JNull
| JBool (b : bool)
| JNum (r : R)
| JStr (s : string)
| JArr (items : list json)
| JObj (members : list (string * json)).
#[local] Set Elimination Schemes.

(** A string handed to [json.loads], identified with what the decoder
    makes of it. *)
Inductive json_str : Type :=
| Malformed
| Text (doc : json).

Definition json_loads (s : json_str) : result json :=
  match s with
  | Malformed => raise JSONDecodeError
  | Text doc => ret doc
  end.

(** [json.dumps] of a value built from dicts, lists, tuples and numbers;
    tuples and lists are both written as arrays. *)
Definition json_dumps (doc : json) : json_str := Text doc.

Fixpoint assoc (k : string) (m : list (string * json)) : option json :=
  match m with
  | [] => None
  | (k', v) :: m' => if String.eqb k k' then Some v else assoc k m'
  end.

(** [d.get(k, default)]: only a dict has the method. *)
Definition dict_get (d : json) (k : string) (default : json) : result json :=
  match d with
  | JObj m => ret (match assoc k m with Some v => v | None => default end)
  | _ => raise AttributeError
  end.

(** [d[k]] for a string key [k]. *)
Definition subscript (d : json) (k : string) : result json :=
  match d with
  | JObj m => match assoc k m with Some v => ret v | None => raise KeyError end
  | _ => raise TypeError
  end.

Fixpoint chars (s : string) : list json :=
  match s with
  | EmptyString => []
  | String a s' => JStr (String a EmptyString) :: chars s'
  end.

(** [for x in v]: a list yields its items, a dict its keys, a string its
    characters; nothing else is iterable. *)
Definition py_iter (v : json) : result (list json) :=
  match v with
  | JArr items => ret items
  | JObj m => ret (map (fun kv => JStr (fst kv)) m)
  | JStr s => ret (chars s)
  | _ => raise TypeError
  end.

(** A value stored into a field annotated [float]. *)
Definition as_float (v : json) : result R :=
  match v with
  | JNum r => ret r
  | _ => raise TypeError
  end.

(** [tuple(v)] stored into a field annotated [Tuple[float, float, float]]. *)
Definition as_tuple3 (v : json) : result (R * R * R) :=
  items <- py_iter v ;;
  match items with
  | [a; b; c] =>
      x <- as_float a ;; y <- as_float b ;; z <- as_float c ;; ret (x, y, z)
  | _ => raise TypeError
  end.

Definition tuple3_to_json (t : R * R * R) : json :=
  let '(x, y, z) := t in JArr [JNum x; JNum y; JNum z].

(** One entry of the ["strokes"] list written by the export. *)
Definition stroke_to_json (s : Stroke) : json :=
  JObj [("points", JArr (map tuple3_to_json (points s)));
        ("width", JNum (width s));
        ("color", tuple3_to_json (color s));
        ("time_created", JNum (time_created s));
        ("base_alpha", JNum (base_alpha s))]%string.

Definition export_strokes_json (c : GLCanvas) : json_str :=
  let data :=
    JObj [("virtual_time", JNum (virtual_time c));
          ("strokes", JArr (map stroke_to_json (strokes c)))]%string in
  json_dumps data.

(** The [Stroke(...)] call of the import, keyword arguments in order. *)
Definition stroke_of_json (d : json) : result Stroke :=
  ps <- subscript d "points" ;;
  ps <- py_iter ps ;;
  pts <- mapM as_tuple3 ps ;;
  w <- subscript d "width" ;;
  w <- as_float w ;;
  col <- subscript d "color" ;;
  col <- as_tuple3 col ;;
  t <- subscript d "time_created" ;;
  t <- as_float t ;;
  a <- dict_get d "base_alpha" (JNum 1.0) ;;
  a <- as_float a ;;
  ret (mkStroke pts w col t a true).

(** [[s["time_created"] for s in data.get("strokes", [])]]. *)
Definition snapshot_times (data : json) : result (list R) :=
  ss <- dict_get data "strokes" (JArr []) ;;
  ss <- py_iter ss ;;
  mapM (fun s => t <- subscript s "time_created" ;; as_float t) ss.

(** [[Stroke(...) for d in data.get("strokes", [])]]. *)
Definition snapshot_strokes (data : json) : result (list Stroke) :=
  ds <- dict_get data "strokes" (JArr []) ;;
  ds <- py_iter ds ;;
  mapM stroke_of_json ds.

Definition import_strokes_json (json_str : json_str) (c : GLCanvas) : outcome :=
  match json_loads json_str with
  | inl e => Raised e c
  | inr data =>
      match (v <- dict_get data "virtual_time" (JNum 0.0) ;; as_float v) with
      | inl e => Raised e c
      | inr vt =>
          let c1 := set_virtual_time c vt in
          match snapshot_times data with
          | inl e => Raised e c1
          | inr times =>
              let c2 :=
                set_max_virtual_time c1
                  (py_max (virtual_time c1) (py_max_list times 0.0)) in
              match snapshot_strokes data with
              | inl e => Raised e c2
              | inr ss => Returned (set_strokes c2 ss)
              end
          end
      end
  end.

(** ** Writers of the canvas clock in [MainWindow] and [TimelineWidget] *)

Definition timeline_max : R := 300.0.

(** [MainWindow.on_timeline_slider(v)]. *)
Definition on_timeline_slider (v : Z) (c : GLCanvas) : GLCanvas :=
  set_virtual_time c (IZR v / 100.0 * timeline_max).

(** [MainWindow.advance_timeline]: one tick of the playback timer. *)
Definition advance_timeline (c : GLCanvas) : GLCanvas :=
  let t := virtual_time c + 0.033 in
  let t := if Rle_dec (max_virtual_time c) t then max_virtual_time c else t in
  set_virtual_time c t.

(** [MainWindow.go_to_now]. *)
Definition go_to_now (c : GLCanvas) : GLCanvas :=
  set_virtual_time c (max_virtual_time c).

(** [TimelineWidget.handle_chaos_pad] at pointer abscissa [x] in a widget
    of width [w]. *)
Definition handle_chaos_pad (x : R) (w : Z) (c : GLCanvas) : GLCanvas :=
  set_virtual_time c (if (0 <? w)%Z then x / IZR w * timeline_max else 0.0).

(** [MainWindow.get_stroke_times]. *)
Definition get_stroke_times (c : GLCanvas) : list R :=
  map time_created (strokes c).

(** ** World lines ([TimelineWidget.calc_segments]) *)

Record TimelineWidget : Type := mkTimelineWidget {
  stroke_times : list R;
  segment_indices : list (list nat);
  segment_ys : list Z;
  line_height : Z
}.

(** The [for i in range(1, len(self.stroke_times))] loop with its local
    variables; [ts] are the times from index [i] on. *)
Fixpoint calc_segments_loop (lh : Z) (ts : list R) (i : nat) (prev_time : R)
    (indices : list nat) (y : Z) (segs : list (list nat)) (ys : list Z)
  : list (list nat) * list Z :=
  match ts with
  | [] => (segs ++ [indices], ys ++ [y])
  | t :: ts' =>
      if Rlt_dec t prev_time
      then calc_segments_loop lh ts' (S i) t [i] (y + (lh + 2))%Z
             (segs ++ [indices]) (ys ++ [y])
      else calc_segments_loop lh ts' (S i) t (indices ++ [i]) y segs ys
  end.

Definition calc_segments (w : TimelineWidget) : TimelineWidget :=
  let '(segs, ys) :=
    match stroke_times w with
    | [] => ([], [])
    | t0 :: ts => calc_segments_loop (line_height w) ts 1 t0 [0%nat] 0%Z [] []
    end in
  mkTimelineWidget (stroke_times w) segs ys (line_height w).

(** [TimelineWidget.__init__] followed by [set_stroke_times(times, ...)]. *)
Definition set_stroke_times (times : list R) : TimelineWidget :=
  calc_segments (mkTimelineWidget times [] [] 12%Z).

(** The segments the loop has not closed yet, as a function of its local
    variables: the list appended to [segment_indices] from here on. *)
Fixpoint pending_segments (ts : list R) (i : nat) (prev_time : R)
    (indices : list nat) : list (list nat) :=
  match ts with
  | [] => [indices]
  | t :: ts' =>
      if Rlt_dec t prev_time
      then indices :: pending_segments ts' (S i) t [i]
      else pending_segments ts' (S i) t (indices ++ [i])
  end.

Definition time_at (times : list R) (i : nat) : R := nth i times 0.

(** World lines as the specification words them: the indices [0 .. n-1]
    cut, in order, into non-empty runs; inside a run each next time is at
    least the previous one; each run after the first starts with a time
    strictly below the time that ends the run before it (so no run can be
    extended). *)
Definition world_lines (times : list R) (segs : list (list nat)) : Prop :=
  concat segs = seq 0 (length times) /\
  Forall (fun seg => seg <> []) segs /\
  Forall (fun seg => forall j : nat,
              In j seg -> In (S j) seg ->
              time_at times j <= time_at times (S j)) segs /\
  (forall (k : nat) (s1 s2 : list nat),
      nth_error segs k = Some s1 -> nth_error segs (S k) = Some s2 ->
      time_at times (hd 0%nat s2) < time_at times (last s1 0%nat)).

(** ** The event loop

    Everything that writes the canvas, one event at a time (the frame loop
    is single-threaded).  An exception raised inside a handler leaves the
    canvas as the handler had it at that point. *)

Inductive event : Type :=
| MousePress (lb : bool) (x y : R)
| MouseMove (lb : bool) (x y : R)
| MouseRelease (lb : bool)
| DrawTick                          (* timeout of the canvas timer *)
| SliderMoved (v : Z)
| PlayTick                          (* timeout of the playback timer *)
| GoToNow
| ChaosPad (x : R) (w : Z)
| KeyC                              (* clear *)
| Import (s : json_str)
| Paint (gpu : rasteriser) (cw ch : Z).

Definition step (c : GLCanvas) (e : event) : GLCanvas :=
  match e with
  | MousePress lb x y => mousePressEvent lb x y c
  | MouseMove lb x y => mouseMoveEvent lb x y c
  | MouseRelease lb => mouseReleaseEvent lb c
  | DrawTick => if timer_active c then advance_virtual_time c else c
  | SliderMoved v => on_timeline_slider v c
  | PlayTick => advance_timeline c
  | GoToNow => go_to_now c
  | ChaosPad x w => handle_chaos_pad x w c
  | KeyC => clear_all c
  | Import s => state_of (import_strokes_json s c)
  | Paint gpu cw ch => state_of (paintEvent gpu cw ch c)
  end.

Definition run (es : list event) (c : GLCanvas) : GLCanvas :=
  fold_left step es c.

(** The canvases the program can be in. *)
Definition reachable (c : GLCanvas) : Prop :=
  exists dw dh es, c = run es (GLCanvas_init dw dh).

(** A retired stroke was retired by a frame later than its creation, with
    alpha zero: the invariant behind resurrection. *)
Definition retired_in_the_past (c : GLCanvas) : Prop :=
  Forall (fun s => is_visible s = false ->
                   time_created s < last_virtual_time c /\ base_alpha s = 0)
         (strokes c).

(** ** Sample inputs used by the examples below *)

(** A canvas as constructed by the program, after a frame that saw a full
    density map: the factor is [1 + 3 * (1 - 0.05) = 3.85]. *)
Definition canvas_after_dense_frame : GLCanvas :=
  controller_update 1.0 (GLCanvas_init 128 96).

(** A canvas configured with the given target density, everything else as
    in [__init__]. *)
Definition canvas_with_target (t : R) : GLCanvas :=
  mkGLCanvas [] [] 128 96 t 0.02 0.1 3.0 1.0 0.0 0.0 0.0 false.

(** A committed two-point stroke created at time [t]. *)
Definition sample_stroke (t : R) : Stroke :=
  mkStroke [(0, 0, 1.0); (10, 0, 1.0)] 6.0 (0, 0, 0) t 1.0 true.

(** The pointer went down and moved once: two points are accumulated. *)
Definition canvas_mid_drag : GLCanvas :=
  mouseMoveEvent true 10 0 (mousePressEvent true 0 0 (GLCanvas_init 128 96)).

(** A small canvas (2 x 2 density texture) holding one committed stroke. *)
Definition canvas_one_stroke : GLCanvas :=
  set_strokes (GLCanvas_init 2 2) [sample_stroke 0].

(** A rasteriser that reports every cell half covered. *)
Definition half_covered : rasteriser := fun _ _ => 0.5.

(** The document [{"virtual_time": 5.0, "strokes": [{}]}]: well-formed
    JSON whose only stroke has no fields. *)
Definition snapshot_with_empty_stroke : json_str :=
  Text (JObj [("virtual_time", JNum 5.0);
              ("strokes", JArr [JObj []])]%string).

(** A canvas holding one retired stroke (alpha 0, flag cleared). *)
Definition canvas_with_retired_stroke : GLCanvas :=
  set_strokes (GLCanvas_init 128 96)
    [set_is_visible false (set_base_alpha 0.0 (sample_stroke 0))].

(** A session: draw one stroke at time 0, drag the timeline slider to its
    end (time 300) and let one frame be painted. *)
Definition retiring_session : list event :=
  [MousePress true 0 0; MouseMove true 10 0; MouseRelease true;
   SliderMoved 100; Paint half_covered 800 600].

(** ** The rest of the module

    The functions below are not needed by the numbered claims; they are
    embedded under the same conventions. *)

(** *** [flatten_quadratic_bezier] *)

Definition point2 : Type := (R * R)%type.

(** [_flat(a, b, c)]: squared distance between the curve's midpoint and the
    chord's midpoint. *)
Definition _flat (a b c : point2) : R :=
  let mx := (fst a + fst c) / 2.0 in
  let my := (snd a + snd c) / 2.0 in
  let bx := (fst a + 2 * fst b + fst c) / 4.0 in
  let by_ := (snd a + 2 * snd b + snd c) / 4.0 in
  let dx := bx - mx in
  let dy := by_ - my in
  dx * dx + dy * dy.

(** [_recurse(a, b, c)], returning the points it appends to [pts].  The
    fuel bounds the depth of the call stack; [None] is a recursion that
    does not come back within it. *)
Fixpoint _recurse (fuel : nat) (tol : R) (a b c : point2)
  : option (list point2) :=
  match fuel with
  | O => None
  | S fuel' =>
      if Rle_dec (_flat a b c) (tol * tol) then Some [c]
      else
        let ab := ((fst a + fst b) / 2.0, (snd a + snd b) / 2.0) in
        let bc := ((fst b + fst c) / 2.0, (snd b + snd c) / 2.0) in
        let abc := ((fst ab + fst bc) / 2.0, (snd ab + snd bc) / 2.0) in
        match _recurse fuel' tol a ab abc with
        | None => None
        | Some left_pts =>
            match _recurse fuel' tol abc bc c with
            | None => None
            | Some right_pts => Some (left_pts ++ right_pts)
            end
        end
  end.

Definition flatten_quadratic_bezier (fuel : nat) (p0 p1 p2 : point2) (tol : R)
  : option (list point2) :=
  match _recurse fuel tol p0 p1 p2 with
  | None => None
  | Some pts => Some (p0 :: pts)
  end.

(** *** [Stroke.bbox] *)

(** [min(xs)] and [max(xs)] of a sequence: the first extremal item;
    [None] is the [ValueError] raised for an empty sequence. *)
Definition py_min_seq (xs : list R) : option R :=
  match xs with
  | [] => None
  | x :: xs' => Some (fold_left py_min xs' x)
  end.

Definition py_max_seq (xs : list R) : option R :=
  match xs with
  | [] => None
  | x :: xs' => Some (fold_left py_max xs' x)
  end.

Definition bbox (s : Stroke) : option (R * R * R * R) :=
  let xs := map (fun p : point => fst (fst p)) (points s) in
  let ys := map (fun p : point => snd (fst p)) (points s) in
  match py_min_seq xs, py_min_seq ys, py_max_seq xs, py_max_seq ys with
  | Some x0, Some y0, Some x1, Some y1 => Some (x0, y0, x1, y1)
  | _, _, _, _ => None
  end.

(** *** Quads of the density map *)


(** *** The drawing pass of [GLCanvas.paintEvent] (after the decay loop) *)

(** What is handed to a [QPainterPath]. *)
Inductive path_cmd : Type :=
| MoveTo (x y : R)
| QuadTo (x1 y1 cx cy : R).

(** [for i in range(1, len(pts) - 1)]: one [quadTo] per pair
    [(pts[i], pts[i + 1])]; the argument is [pts[1:]]. *)
Fixpoint quad_cmds (pts : list point) : list path_cmd :=
  match pts with
  | p1 :: ((p2 :: _) as rest) =>
      let '(x1, y1, _) := p1 in
      let '(x2, y2, _) := p2 in
      QuadTo x1 y1 ((x1 + x2) / 2) ((y1 + y2) / 2) :: quad_cmds rest
  | _ => []
  end.

(** The path of a point list; [None] is the [IndexError] of [pts[0]] on an
    empty list. *)
Definition stroke_path (pts : list point) : option (list path_cmd) :=
  match pts with
  | [] => None
  | (x0, y0, _) :: rest => Some (MoveTo x0 y0 :: quad_cmds rest)
  end.

(** [int(x)]: truncation towards zero. *)
Definition py_int (x : R) : Z :=
  if Rle_dec 0 x then Int_part x else (- Int_part (- x))%Z.

(** The state of the [QPen]: RGB, alpha channel. *)
Definition pen_colour : Type := (Z * Z * Z * Z)%type.

(** One [painter.drawPath(path)] with the pen in force. *)
Record draw_call : Type := mkDrawCall {
  call_path : list path_cmd;
  call_width : R;
  call_colour : pen_colour
}.

(** The loop over [enumerate(self.strokes)]; [idx] is the index of the
    head of [ss], [pen] the colour the pen holds on entry.  Returns the
    calls made and the colour the pen holds on exit. *)
Fixpoint draw_strokes (highlight : list nat) (idx : nat) (pen : pen_colour)
    (ss : list Stroke) : option (list draw_call * pen_colour) :=
  match ss with
  | [] => Some ([], pen)
  | s :: ss' =>
      if Rlt_dec (base_alpha s) 0.01
      then draw_strokes highlight (S idx) pen ss'
      else
        match stroke_path (points s) with
        | None => None
        | Some path =>
            let rgb := if existsb (Nat.eqb idx) highlight
                       then (0, 180, 255)%Z else (0, 0, 0)%Z in
            let pen' :=
              (rgb, py_int (255 * np_clip 0.0 1.0 (base_alpha s))) in
            match draw_strokes highlight (S idx) pen' ss' with
            | None => None
            | Some (calls, pen_out) =>
                Some (mkDrawCall path (width s) pen' :: calls, pen_out)
            end
        end
  end.

(** Lines 249-285: the committed strokes, then the stroke in progress with
    the pen as the loop left it.  [highlight] is
    [self.highlight_stroke_indices]. *)
Definition draw_canvas (highlight : list nat) (c : GLCanvas)
  : option (list draw_call) :=
  match draw_strokes highlight 0 (0, 0, 0, 255)%Z (strokes c) with
  | None => None
  | Some (calls, pen) =>
      match current_points c with
      | [] => Some calls
      | _ :: _ =>
          match stroke_path (current_points c) with
          | None => None
          | Some path => Some (calls ++ [mkDrawCall path 6.0 pen])
          end
      end
  end.

(** *** [TimelineWidget.update_highlight_by_y] *)

(** The loop over [enumerate(self.segment_ys)]: the first row whose
    centre is closer than [line_height] to [y]. *)
Fixpoint highlight_scan (lh : Z) (y : R) (seg_idx : nat) (ys : list Z)
  : option nat :=
  match ys with
  | [] => None
  | seg_y :: ys' =>
      if Rlt_dec (Rabs (y - IZR (seg_y + lh / 2))) (IZR lh)
      then Some seg_idx
      else highlight_scan lh y (S seg_idx) ys'
  end.

(** Returns [highlight_segment] and the argument of [highlight_callback];
    [None] is the [IndexError] of [self.segment_indices[seg_idx]]. *)
Definition update_highlight_by_y (w : TimelineWidget) (y : R)
  : option (option nat * list nat) :=
  match highlight_scan (line_height w) y 0 (segment_ys w) with
  | Some seg_idx =>
      match nth_error (segment_indices w) seg_idx with
      | Some indices => Some (Some seg_idx, indices)
      | None => None
      end
  | None => Some (None, [])
  end.

(** *** Sessions *)

(** Pointer samples delivered by the moves of a drag. *)
Fixpoint drag_samples (es : list event) : list point :=
  match es with
  | MouseMove true x y :: es' => (x, y, 1.0) :: drag_samples es'
  | _ :: es' => drag_samples es'
  | [] => []
  end.

(** Number of ticks of the drawing timer. *)
Fixpoint drag_ticks (es : list event) : nat :=
  match es with
  | DrawTick :: es' => S (drag_ticks es')
  | _ :: es' => drag_ticks es'
  | [] => O
  end.

(** What happens between pointer down and pointer up. *)
Definition drag_event (e : event) : Prop :=
  match e with
  | MouseMove true _ _ => True
  | DrawTick => True
  | _ => False
  end.

(** No import of the session raises. *)
Fixpoint imports_succeed (es : list event) (c : GLCanvas) : Prop :=
  match es with
  | [] => True
  | e :: es' =>
      match e with
      | Import s => exists c', import_strokes_json s c = Returned c'
      | _ => True
      end /\ imports_succeed es' (step c e)
  end.

(** No import at all. *)
Definition is_import (e : event) : bool :=
  match e with
  | Import _ => true
  | _ => false
  end.

(** No stroke is created later than the high-water mark. *)
Definition below_high_water (c : GLCanvas) : Prop :=
  Forall (fun s => time_created s <= max_virtual_time c) (strokes c).

(** ** Proof automation *)

(** Decide one comparison whose operands contain no other comparison. *)
Ltac case_Rlt :=
  match goal with
  | |- context [Rlt_dec ?a ?b] =>
      lazymatch a with context [Rlt_dec _ _] => fail | _ => idtac end;
      lazymatch b with context [Rlt_dec _ _] => fail | _ => idtac end;
      destruct (Rlt_dec a b)
  end.

Ltac case_Rabs :=
  unfold Rabs in *;
  repeat match goal with
         | |- context [Rcase_abs ?a] => destruct (Rcase_abs a)
         | H : context [Rcase_abs ?a] |- _ => destruct (Rcase_abs a)
         end.

(** * Properties *)

(** ** Python helpers *)

Lemma py_max_Rmax (a b : R) : py_max a b = Rmax a b.
Proof.
  unfold py_max, Rmax.
  destruct (Rlt_dec a b), (Rle_dec a b); lra.
Qed.

Lemma py_min_Rmin (a b : R) : py_min a b = Rmin a b.
Proof.
  unfold py_min, Rmin.
  destruct (Rlt_dec b a), (Rle_dec a b); lra.
Qed.

Lemma clamp_range (x : R) : 0.1 <= py_max 0.1 (py_min 4.0 x) <= 4.0.
Proof.
  unfold py_max, py_min.
  repeat case_Rlt; lra.
Qed.

(** ** The controller *)

Lemma controller_update_factor (gd : R) (c : GLCanvas) :
  lambdas_factor (controller_update gd c) =
  py_max 0.1 (py_min 4.0
    (1.0 + lambda_k c *
       (if Rlt_dec (Rabs (gd - target_density c)) (hysteresis c)
        then 0.0 else gd - target_density c))).
Proof. reflexivity. Qed.

Lemma controller_update_frame (gd : R) (c : GLCanvas) :
  controller_update gd c =
  set_lambdas_factor c (lambdas_factor (controller_update gd c)).
Proof. reflexivity. Qed.

Lemma dead_zone_factor (gd : R) (c : GLCanvas) :
  Rabs (gd - target_density c) < hysteresis c ->
  lambdas_factor (controller_update gd c) = 1.0.
Proof.
  intros Hdead.
  rewrite controller_update_factor.
  destruct (Rlt_dec _ _) as [_ | Hn]; [| contradiction].
  unfold py_max, py_min.
  repeat case_Rlt; lra.
Qed.

Lemma init_dead_zone_sample :
  Rabs (0.06 - target_density (GLCanvas_init 128 96))
  < hysteresis (GLCanvas_init 128 96).
Proof. simpl. case_Rabs; lra. Qed.

Lemma dense_frame_factor : lambdas_factor canvas_after_dense_frame = 3.85.
Proof.
  unfold canvas_after_dense_frame.
  rewrite controller_update_factor. simpl.
  unfold py_max, py_min.
  repeat case_Rlt; case_Rabs; lra.
Qed.

(** C2 (as amended): inside the dead zone the update applies no correction,
    which in this controller means that the factor is set to exactly 1.0
    whatever it was before; nothing else on the canvas changes. *)
Theorem dead_zone_resets_factor (c : GLCanvas) (gd : R) :
  Rabs (gd - target_density c) < hysteresis c ->
  controller_update gd c = set_lambdas_factor c 1.0.
Proof.
  intros Hdead.
  rewrite controller_update_frame.
  now rewrite (dead_zone_factor gd c Hdead).
Qed.

(** The sample of the specification: target 0.05, hysteresis 0.02 and
    density 0.06 lie in the dead zone, and the factor comes out as 1.0. *)
Lemma dead_zone_resets_factor_witness :
  Rabs (0.06 - 0.05) < 0.02 /\
  lambdas_factor (controller_update 0.06 (GLCanvas_init 128 96)) = 1.0.
Proof.
  split.
  - exact init_dead_zone_sample.
  - rewrite (dead_zone_resets_factor (GLCanvas_init 128 96) 0.06
               init_dead_zone_sample).
    reflexivity.
Defined.

(** C2 as stated fails: the factor left by a dense frame (3.85) is not kept
    by a following update in the dead zone. *)
Lemma dead_zone_forgets_previous_factor :
  ~ (forall (c : GLCanvas) (gd : R),
       Rabs (gd - target_density c) < hysteresis c ->
       lambdas_factor (controller_update gd c) = lambdas_factor c).
Proof.
  intros Hclaim.
  specialize (Hclaim canvas_after_dense_frame 0.06 init_dead_zone_sample).
  rewrite dense_frame_factor in Hclaim.
  rewrite dead_zone_factor in Hclaim by exact init_dead_zone_sample.
  lra.
Qed.

Lemma paintEvent_factor (gpu : rasteriser) (cw ch : Z) (c c' : GLCanvas) :
  paintEvent gpu cw ch c = Returned c' ->
  exists gd, lambdas_factor c' =
             lambdas_factor (controller_update gd (rewind_check c)).
Proof.
  unfold paintEvent.
  destruct (render_density_map gpu cw ch (rewind_check c)) as [e | d];
    [discriminate |].
  intros [= <-]. now exists (global_density d).
Qed.

(** C5: every controller update leaves the factor in [0.1, 4.0], and so
    does every completed frame; with target 0, gain 3 and density 1 the
    factor is exactly 4.0, with target 1 and density 0 exactly 0.1 (the
    hysteresis band, 0.02 in the program, must not swallow the error). *)
Theorem factor_clamped (c : GLCanvas) (gd : R) :
  0.1 <= lambdas_factor (controller_update gd c) <= 4.0 /\
  (forall gpu cw ch c', paintEvent gpu cw ch c = Returned c' ->
                        0.1 <= lambdas_factor c' <= 4.0) /\
  (target_density c = 0.0 -> lambda_k c = 3.0 -> hysteresis c <= 1.0 ->
   lambdas_factor (controller_update 1.0 c) = 4.0) /\
  (target_density c = 1.0 -> lambda_k c = 3.0 -> hysteresis c <= 1.0 ->
   lambdas_factor (controller_update 0.0 c) = 0.1).
Proof.
  repeat split.
  - rewrite controller_update_factor. apply clamp_range.
  - rewrite controller_update_factor. apply clamp_range.
  - destruct (paintEvent_factor _ _ _ _ _ H) as [d ->].
    rewrite controller_update_factor. apply clamp_range.
  - destruct (paintEvent_factor _ _ _ _ _ H) as [d ->].
    rewrite controller_update_factor. apply clamp_range.
  - intros Ht Hk Hh. rewrite controller_update_factor, Ht, Hk.
    unfold py_max, py_min. repeat case_Rlt; case_Rabs; lra.
  - intros Ht Hk Hh. rewrite controller_update_factor, Ht, Hk.
    unfold py_max, py_min. repeat case_Rlt; case_Rabs; lra.
Qed.

Lemma factor_clamped_witness :
  lambdas_factor (controller_update 1.0 (canvas_with_target 0.0)) = 4.0 /\
  lambdas_factor (controller_update 0.0 (canvas_with_target 1.0)) = 0.1.
Proof.
  split.
  - apply (factor_clamped (canvas_with_target 0.0) 1.0);
      simpl; try reflexivity; lra.
  - apply (factor_clamped (canvas_with_target 1.0) 0.0);
      simpl; try reflexivity; lra.
Defined.

(** ** Decay *)

Lemma exp_le_mono (x y : R) : x <= y -> exp x <= exp y.
Proof.
  intros [Hlt | ->].
  - left. now apply exp_increasing.
  - right. reflexivity.
Qed.

(** The alpha a visible stroke gets at age [now - time_created s >= 0]. *)
Lemma decay_stroke_alpha (c : GLCanvas) (now : R) (s : Stroke) :
  is_visible s = true ->
  0 <= now - time_created s ->
  base_alpha (decay_stroke c now s) =
  let a := exp (- (lambda_base c * lambdas_factor c) * (now - time_created s)) in
  if Rlt_dec a 0.001 then 0.0 else a.
Proof.
  intros Hvis Hage. unfold decay_stroke. rewrite Hvis. simpl.
  destruct (Rlt_dec (now - time_created s) 0) as [Hneg | _]; [lra |].
  destruct (Rlt_dec _ 0.001); reflexivity.
Qed.

Lemma decay_stroke_at_creation (c : GLCanvas) (s : Stroke) :
  is_visible s = true ->
  base_alpha (decay_stroke c (time_created s) s) = 1.0 /\
  is_visible (decay_stroke c (time_created s) s) = true.
Proof.
  intros Hvis. unfold decay_stroke. rewrite Hvis. simpl.
  replace (time_created s - time_created s) with 0 by lra.
  rewrite Rmult_0_r, exp_0.
  destruct (Rlt_dec 0 0); [lra |].
  destruct (Rlt_dec 1 0.001); [lra |]. simpl. split; [lra | exact Hvis].
Qed.

(** C8: a visible stroke has alpha exactly 1.0 at age 0, and for a fixed
    factor (any non-negative effective rate, which covers the whole range
    of the controller) its alpha does not increase with age. *)
Theorem decay_monotone_in_age (c : GLCanvas) (s : Stroke) :
  is_visible s = true ->
  base_alpha (decay_stroke c (time_created s) s) = 1.0 /\
  forall now1 now2 : R,
    0 <= lambda_base c * lambdas_factor c ->
    0 <= now1 - time_created s ->
    now1 - time_created s < now2 - time_created s ->
    base_alpha (decay_stroke c now2 s) <= base_alpha (decay_stroke c now1 s).
Proof.
  intros Hvis. split.
  - now apply decay_stroke_at_creation.
  - intros now1 now2 Hlam Hage1 Hlt.
    rewrite !decay_stroke_alpha by (trivial; lra). simpl.
    set (lam := lambda_base c * lambdas_factor c) in *.
    assert (Hexp : exp (- lam * (now2 - time_created s))
                   <= exp (- lam * (now1 - time_created s)))
      by (apply exp_le_mono; nra).
    pose proof (exp_pos (- lam * (now1 - time_created s))) as Hpos.
    repeat case_Rlt; lra.
Qed.

Lemma decay_monotone_in_age_witness :
  base_alpha (decay_stroke (GLCanvas_init 128 96) 0 (sample_stroke 0)) = 1.0 /\
  base_alpha (decay_stroke (GLCanvas_init 128 96) 2 (sample_stroke 0))
  <= base_alpha (decay_stroke (GLCanvas_init 128 96) 1 (sample_stroke 0)).
Proof.
  destruct (decay_monotone_in_age (GLCanvas_init 128 96) (sample_stroke 0)
              eq_refl) as [Hzero Hmono].
  split.
  - exact Hzero.
  - apply Hmono; simpl; lra.
Defined.

(** ** Committing a stroke *)

(** C9: releasing the pointer with fewer than two accumulated points
    returns the canvas untouched (strokes, pending points, both clocks and
    the drawing timer), and never raises; with two or more points exactly
    one stroke is appended, created at the current virtual time. *)
Theorem commit_needs_two_points (c : GLCanvas) (lb : bool) :
  ((length (current_points c) < 2)%nat -> mouseReleaseEvent lb c = c) /\
  ((2 <= length (current_points c))%nat ->
   let c' := mouseReleaseEvent true c in
   strokes c' =
     strokes c ++ [mkStroke (current_points c) 6.0 (0, 0, 0) (virtual_time c)
                            1.0 true] /\
   current_points c' = [] /\
   virtual_time c' = virtual_time c /\
   max_virtual_time c' = Rmax (max_virtual_time c) (virtual_time c) /\
   timer_active c' = false).
Proof.
  split.
  - intros Hfew. unfold mouseReleaseEvent.
    destruct (Nat.leb_spec 2 (length (current_points c))); [lia |].
    now rewrite andb_false_r.
  - intros Hmany c'. subst c'. unfold mouseReleaseEvent.
    destruct (Nat.leb_spec 2 (length (current_points c))); [| lia].
    simpl. unfold Rmax.
    destruct (Rlt_dec _ _), (Rle_dec _ _); simpl; repeat split; lra.
Qed.

Lemma commit_needs_two_points_witness :
  mouseReleaseEvent true (mousePressEvent true 0 0 (GLCanvas_init 128 96))
  = mousePressEvent true 0 0 (GLCanvas_init 128 96) /\
  length (strokes (mouseReleaseEvent true canvas_mid_drag)) = 1%nat.
Proof.
  split.
  - apply (commit_needs_two_points
             (mousePressEvent true 0 0 (GLCanvas_init 128 96)) true).
    simpl. lia.
  - destruct (commit_needs_two_points canvas_mid_drag true) as [_ Hcommit].
    destruct Hcommit as [Hs _]; [simpl; lia |].
    rewrite Hs. reflexivity.
Defined.

(** ** Density *)

Lemma np_clip_unit (x : R) : 0 <= np_clip 0.0 1.0 x <= 1.
Proof.
  unfold np_clip, Rmin, Rmax.
  destruct (Rle_dec x 0.0); destruct (Rle_dec _ 1.0); lra.
Qed.

Lemma sum_unit_cells (arr : list R) :
  Forall (fun x => 0 <= x <= 1) arr ->
  0 <= fold_right Rplus 0 arr <= INR (length arr).
Proof.
  induction 1 as [| x arr Hx _ IH].
  - simpl. lra.
  - change (length (x :: arr)) with (S (length arr)).
    rewrite S_INR. simpl. lra.
Qed.

Lemma np_mean_unit (arr : list R) :
  arr <> [] ->
  Forall (fun x => 0 <= x <= 1) arr ->
  0 <= np_mean arr <= 1.
Proof.
  intros Hne Hcells.
  pose proof (sum_unit_cells arr Hcells) as Hsum.
  assert (Hlen : 0 < INR (length arr)).
  { apply lt_0_INR. destruct arr; [congruence | simpl; lia]. }
  unfold np_mean. split.
  - apply Rmult_le_pos; [lra |]. left. now apply Rinv_0_lt_compat.
  - apply Rmult_le_reg_r with (r := INR (length arr)); [exact Hlen |].
    unfold Rdiv. rewrite Rmult_assoc, Rinv_l by lra. lra.
Qed.

Lemma py_div_nonzero (x : R) (n : Z) :
  n <> 0%Z -> py_div x n = ret (x / IZR n).
Proof.
  intros Hn. unfold py_div.
  now destruct (Z.eqb_spec n 0).
Qed.

Lemma segment_verts_total (s : Stroke) (cw ch : Z) (p0 p1 : point) :
  cw <> 0%Z -> ch <> 0%Z -> exists q, segment_verts s cw ch p0 p1 = inr q.
Proof.
  intros Hw Hh. unfold segment_verts.
  destruct p0 as [[x0 y0] pr0], p1 as [[x1 y1] pr1].
  destruct (Rlt_dec _ _); [now eexists |].
  rewrite !py_div_nonzero by assumption. simpl. now eexists.
Qed.

Lemma stroke_verts_total (s : Stroke) (cw ch : Z) (pts : list point) :
  cw <> 0%Z -> ch <> 0%Z -> exists q, stroke_verts s cw ch pts = inr q.
Proof.
  intros Hw Hh. induction pts as [| p0 [| p1 rest] IH].
  - now eexists.
  - now eexists.
  - destruct (segment_verts_total s cw ch p0 p1 Hw Hh) as [q Hq].
    destruct IH as [r Hr].
    exists (q ++ r).
    change (stroke_verts s cw ch (p0 :: p1 :: rest))
      with (q <- segment_verts s cw ch p0 p1 ;;
            r <- stroke_verts s cw ch (p1 :: rest) ;; ret (q ++ r)).
    now rewrite Hq, Hr.
Qed.

Lemma all_verts_total (now : R) (cw ch : Z) (ss : list Stroke) :
  cw <> 0%Z -> ch <> 0%Z -> exists q, all_verts now cw ch ss = inr q.
Proof.
  intros Hw Hh. induction ss as [| s ss IH].
  - now eexists.
  - destruct IH as [r Hr]. simpl.
    destruct (rasterised now s); [| now exists r].
    destruct (stroke_verts_total s cw ch (points s) Hw Hh) as [q Hq].
    exists (q ++ r). now rewrite Hq, Hr.
Qed.

Lemma all_verts_filtered (now : R) (cw ch : Z) (ss : list Stroke) :
  Forall (fun s => rasterised now s = false) ss ->
  all_verts now cw ch ss = inr [].
Proof.
  induction 1 as [| s ss Hs _ IH]; simpl.
  - reflexivity.
  - now rewrite Hs.
Qed.

Lemma render_density_map_unit (gpu : rasteriser) (cw ch : Z) (c : GLCanvas)
    (density : option (list R)) :
  (0 < density_h c * density_w c)%nat ->
  render_density_map gpu cw ch c = inr density ->
  0 <= global_density density <= 1.
Proof.
  intros Hcells Hmap. unfold render_density_map in Hmap.
  destruct (all_verts _ _ _ _) as [e | [| v verts]]; simpl in Hmap;
    try discriminate; injection Hmap as <-; simpl; [lra |].
  apply np_mean_unit.
  - destruct (density_h c * density_w c)%nat; [lia | discriminate].
  - apply Forall_map, Forall_forall. intros x _. apply np_clip_unit.
Qed.

Lemma render_density_map_total (gpu : rasteriser) (cw ch : Z) (c : GLCanvas) :
  cw <> 0%Z -> ch <> 0%Z ->
  exists density, render_density_map gpu cw ch c = inr density.
Proof.
  intros Hw Hh. unfold render_density_map.
  destruct (all_verts_total (virtual_time c) cw ch (strokes c) Hw Hh)
    as [[| v verts] ->]; simpl; now eexists.
Qed.

(** C7: the density handed to the controller lies in [0, 1] whatever the
    strokes, the virtual time, the viewport and the rasteriser's output
    (the texture has at least one cell); the map is computed for every
    non-empty viewport; and when no stroke passes the retirement, time and
    point-count filters there is no map and the density is exactly 0. *)
Theorem density_bounded (gpu : rasteriser) (cw ch : Z) (c : GLCanvas) :
  (0 < density_h c * density_w c)%nat ->
  (forall density,
      render_density_map gpu cw ch c = inr density ->
      0 <= global_density density <= 1) /\
  (cw <> 0%Z -> ch <> 0%Z ->
   exists density, render_density_map gpu cw ch c = inr density) /\
  (Forall (fun s => rasterised (virtual_time c) s = false) (strokes c) ->
   render_density_map gpu cw ch c = inr None /\ global_density None = 0).
Proof.
  intros Hcells. split; [| split].
  - intros density. now apply render_density_map_unit.
  - now apply render_density_map_total.
  - intros Hnone. split.
    + unfold render_density_map. now rewrite all_verts_filtered.
    + simpl. lra.
Qed.

Lemma density_bounded_witness :
  (exists density,
      render_density_map half_covered 800 600 canvas_one_stroke = inr density /\
      0 <= global_density density <= 1) /\
  render_density_map half_covered 0 0 (GLCanvas_init 2 2) = inr None.
Proof.
  split.
  - destruct (density_bounded half_covered 800 600 canvas_one_stroke)
      as (Hunit & Htotal & _); [simpl; lia |].
    destruct Htotal as [density Hmap]; [lia | lia |].
    exists density. split; [exact Hmap | exact (Hunit density Hmap)].
  - destruct (density_bounded half_covered 0 0 (GLCanvas_init 2 2))
      as (_ & _ & Hnone); [simpl; lia |].
    apply Hnone. constructor.
Defined.

(** ** Snapshots *)

Lemma mapM_map_inverse {A B : Type} (f : A -> result B) (g : B -> A)
    (ys : list B) :
  (forall y, f (g y) = inr y) -> mapM f (map g ys) = inr ys.
Proof.
  intros Hinv. induction ys as [| y ys IH]; simpl.
  - reflexivity.
  - now rewrite Hinv, IH.
Qed.

Lemma mapM_map {A B C : Type} (f : A -> result B) (g : C -> A) (h : C -> B)
    (xs : list C) :
  (forall x, f (g x) = inr (h x)) -> mapM f (map g xs) = inr (map h xs).
Proof.
  intros Hfg. induction xs as [| x xs IH]; simpl.
  - reflexivity.
  - now rewrite Hfg, IH.
Qed.

Lemma mapM_Forall {A B : Type} (f : A -> result B) (P : B -> Prop)
    (xs : list A) (ys : list B) :
  (forall x y, f x = inr y -> P y) ->
  mapM f xs = inr ys -> Forall P ys.
Proof.
  intros Hf. revert ys. induction xs as [| x xs IH]; simpl; intros ys Hys.
  - injection Hys as <-. constructor.
  - destruct (f x) as [e | y] eqn:Hy; [discriminate |].
    destruct (mapM f xs) as [e | ys'] eqn:Hrest; [discriminate |].
    simpl in Hys. injection Hys as <-.
    constructor; [now apply (Hf x) | now apply IH].
Qed.

Lemma as_tuple3_to_json (t : R * R * R) : as_tuple3 (tuple3_to_json t) = inr t.
Proof. now destruct t as [[x y] z]. Qed.

Lemma stroke_of_to_json (s : Stroke) :
  stroke_of_json (stroke_to_json s) = inr (set_is_visible true s).
Proof.
  unfold stroke_of_json, stroke_to_json. simpl.
  rewrite (mapM_map_inverse as_tuple3 tuple3_to_json) by apply as_tuple3_to_json.
  simpl. now rewrite as_tuple3_to_json.
Qed.

Lemma stroke_of_json_visible (d : json) (s : Stroke) :
  stroke_of_json d = inr s -> is_visible s = true.
Proof.
  unfold stroke_of_json, bind.
  repeat match goal with
         | |- match ?m with inl _ => _ | inr _ => _ end = _ -> _ =>
             destruct m; [discriminate |]
         end.
  now intros [= <-].
Qed.

Lemma snapshot_strokes_export (c : GLCanvas) (vt : json) :
  snapshot_strokes
    (JObj [("virtual_time", vt);
           ("strokes", JArr (map stroke_to_json (strokes c)))]%string)
  = inr (map (set_is_visible true) (strokes c)).
Proof.
  unfold snapshot_strokes. simpl.
  apply mapM_map, stroke_of_to_json.
Qed.

Lemma snapshot_times_export (c : GLCanvas) (vt : json) :
  snapshot_times
    (JObj [("virtual_time", vt);
           ("strokes", JArr (map stroke_to_json (strokes c)))]%string)
  = inr (map time_created (strokes c)).
Proof.
  unfold snapshot_times. simpl.
  apply mapM_map. reflexivity.
Qed.

Lemma import_export (c c0 : GLCanvas) :
  import_strokes_json (export_strokes_json c) c0 =
  Returned
    (set_strokes
       (set_max_virtual_time (set_virtual_time c0 (virtual_time c))
          (py_max (virtual_time c)
                  (py_max_list (map time_created (strokes c)) 0.0)))
       (map (set_is_visible true) (strokes c))).
Proof.
  unfold import_strokes_json, export_strokes_json, json_dumps, json_loads, ret.
  rewrite snapshot_times_export, snapshot_strokes_export.
  reflexivity.
Qed.

Lemma revive_keeps_fields (ss : list Stroke) :
  Forall2 (fun s s' => points s' = points s /\ width s' = width s /\
                       color s' = color s /\
                       time_created s' = time_created s /\
                       base_alpha s' = base_alpha s)
          ss (map (set_is_visible true) ss).
Proof. induction ss; simpl; constructor; auto. Qed.

Lemma revive_visible (ss : list Stroke) :
  Forall (fun s => is_visible s = true) ss ->
  map (set_is_visible true) ss = ss.
Proof.
  induction 1 as [| s ss Hs _ IH]; simpl; [reflexivity |].
  rewrite IH. f_equal. destruct s; simpl in *. now subst.
Qed.

(** C4: importing what [export_strokes_json] wrote succeeds, into any
    canvas, and gives back the exported strokes in the same order with the
    same points, width, colour, creation time (and alpha), and the
    exported virtual time; strokes that were not retired come back
    identical. *)
Theorem export_import_roundtrip (c c0 : GLCanvas) :
  exists c',
    import_strokes_json (export_strokes_json c) c0 = Returned c' /\
    virtual_time c' = virtual_time c /\
    strokes c' = map (set_is_visible true) (strokes c) /\
    Forall2 (fun s s' => points s' = points s /\ width s' = width s /\
                         color s' = color s /\
                         time_created s' = time_created s /\
                         base_alpha s' = base_alpha s)
            (strokes c) (strokes c') /\
    (Forall (fun s => is_visible s = true) (strokes c) ->
     strokes c' = strokes c).
Proof.
  eexists. split; [apply import_export |]. simpl.
  repeat split.
  - apply revive_keeps_fields.
  - apply revive_visible.
Qed.

Lemma import_returned_strokes (t : json_str) (c c' : GLCanvas) :
  import_strokes_json t c = Returned c' ->
  exists data, snapshot_strokes data = inr (strokes c').
Proof.
  unfold import_strokes_json.
  destruct (json_loads t) as [e | data]; [discriminate |].
  destruct (v <- dict_get data "virtual_time" (JNum 0.0) ;; as_float v)
    as [e | vt]; [discriminate |].
  destruct (snapshot_times data) as [e | times]; [discriminate |].
  destruct (snapshot_strokes data) as [e | ss] eqn:Hss; [discriminate |].
  intros [= <-]. now exists data.
Qed.

Lemma import_returned_visible (t : json_str) (c c' : GLCanvas) :
  import_strokes_json t c = Returned c' ->
  Forall (fun s => is_visible s = true) (strokes c').
Proof.
  intros Himp.
  destruct (import_returned_strokes t c c' Himp) as [data Hss].
  unfold snapshot_strokes, bind in Hss.
  destruct (dict_get data "strokes" (JArr [])) as [e | ds]; [discriminate |].
  destruct (py_iter ds) as [e | items]; [discriminate |].
  apply (mapM_Forall stroke_of_json) with (xs := items); [| exact Hss].
  exact stroke_of_json_visible.
Qed.

(** A visible stroke is decayed from the clock alone. *)
Lemma decay_stroke_ignores_alpha (k : GLCanvas) (now a : R) (s : Stroke) :
  is_visible s = true ->
  decay_stroke k now (set_base_alpha a s) = decay_stroke k now s.
Proof.
  intros Hvis. unfold decay_stroke. simpl. rewrite Hvis. simpl.
  destruct (Rlt_dec _ 0); [reflexivity |].
  destruct (Rlt_dec _ 0.001); reflexivity.
Qed.

(** C10: after a successful import every stroke has its retirement flag
    cleared, and the next decay pass recomputes its alpha from the clock
    alone, whatever alpha the snapshot stored for it. *)
Theorem import_clears_retirement (t : json_str) (c c' : GLCanvas) :
  import_strokes_json t c = Returned c' ->
  Forall (fun s => is_visible s = true /\
                   forall (k : GLCanvas) (now a : R),
                     decay_stroke k now (set_base_alpha a s)
                     = decay_stroke k now s)
         (strokes c').
Proof.
  intros Himp.
  eapply Forall_impl; [| exact (import_returned_visible t c c' Himp)].
  intros s Hvis. split; [exact Hvis |].
  intros k now a. now apply decay_stroke_ignores_alpha.
Qed.

(** A stroke exported while retired comes back eligible for decay. *)
Lemma import_clears_retirement_witness :
  exists c',
    import_strokes_json (export_strokes_json canvas_with_retired_stroke)
                        (GLCanvas_init 128 96) = Returned c' /\
    Forall (fun s => is_visible s = true) (strokes c').
Proof.
  pose proof (import_export canvas_with_retired_stroke (GLCanvas_init 128 96))
    as Himp.
  eexists. split; [exact Himp |].
  eapply Forall_impl;
    [| exact (import_clears_retirement _ _ _ Himp)].
  intros s [Hvis _]. exact Hvis.
Defined.

(** A stroke without ["base_alpha"] gets alpha 1.0, and the high-water
    mark is the larger of the stored time and the creation times. *)
Example import_defaults :
  import_strokes_json
    (Text (JObj [("virtual_time", JNum 1.0);
                 ("strokes",
                  JArr [JObj [("points", JArr []);
                              ("width", JNum 6.0);
                              ("color", JArr [JNum 0; JNum 0; JNum 0]);
                              ("time_created", JNum 7.0)]])]%string))
    (GLCanvas_init 128 96)
  = Returned
      (mkGLCanvas [mkStroke [] 6.0 (0, 0, 0) 7.0 1.0 true] [] 128 96
                  0.05 0.02 0.1 3.0 1.0 1.0 7.0 0.0 false).
Proof.
  unfold import_strokes_json. simpl. unfold py_max.
  destruct (Rlt_dec 1.0 7.0); [reflexivity | lra].
Qed.

(** What a failed import can have touched: the two clocks, nothing else. *)
Lemma import_raised_frame (t : json_str) (c c' : GLCanvas) (e : exn) :
  import_strokes_json t c = Raised e c' ->
  c' = c \/
  c' = set_virtual_time c (virtual_time c') \/
  c' = set_max_virtual_time (set_virtual_time c (virtual_time c'))
                            (max_virtual_time c').
Proof.
  unfold import_strokes_json.
  destruct (json_loads t) as [e0 | data]; [intros [= _ <-]; now left |].
  destruct (v <- dict_get data "virtual_time" (JNum 0.0) ;; as_float v)
    as [e0 | vt]; [intros [= _ <-]; now left |].
  destruct (snapshot_times data) as [e0 | times];
    [intros [= _ <-]; right; now left |].
  destruct (snapshot_strokes data) as [e0 | ss]; [| discriminate].
  intros [= _ <-]. right; now right.
Qed.

(** C1 (as amended): an import that fails raises, and leaves the stroke
    list, the pending points, the controller and the rewind reference
    exactly as they were; text that is not JSON at all leaves the whole
    canvas untouched.  (The two clocks are not covered: see the
    counterexample.) *)
Theorem failed_import_keeps_strokes (t : json_str) (c c' : GLCanvas) (e : exn) :
  import_strokes_json t c = Raised e c' ->
  strokes c' = strokes c /\
  current_points c' = current_points c /\
  lambdas_factor c' = lambdas_factor c /\
  last_virtual_time c' = last_virtual_time c /\
  timer_active c' = timer_active c /\
  (t = Malformed -> e = JSONDecodeError /\ c' = c).
Proof.
  intros Himp.
  assert (Hbad : t = Malformed -> e = JSONDecodeError /\ c' = c).
  { intros ->. simpl in Himp. injection Himp as <- <-. now split. }
  assert (Hframe : strokes c' = strokes c /\
                   current_points c' = current_points c /\
                   lambdas_factor c' = lambdas_factor c /\
                   last_virtual_time c' = last_virtual_time c /\
                   timer_active c' = timer_active c).
  { destruct (import_raised_frame t c c' e Himp) as [-> | [-> | ->]];
      simpl; repeat split; reflexivity. }
  tauto.
Qed.

Lemma failed_import_keeps_strokes_witness :
  exists e c',
    import_strokes_json snapshot_with_empty_stroke canvas_one_stroke
    = Raised e c' /\
    strokes c' = strokes canvas_one_stroke.
Proof.
  exists KeyError, (set_virtual_time canvas_one_stroke 5.0).
  assert (Himp : import_strokes_json snapshot_with_empty_stroke
                   canvas_one_stroke
                 = Raised KeyError (set_virtual_time canvas_one_stroke 5.0))
    by reflexivity.
  split; [exact Himp |].
  exact (proj1 (failed_import_keeps_strokes _ _ _ _ Himp)).
Defined.

(** C1 as stated fails: [{"virtual_time": 5.0, "strokes": [{}]}] makes the
    import raise [KeyError] at the first stroke, after [virtual_time] has
    been overwritten with 5.0. *)
Lemma failed_import_overwrites_virtual_time :
  import_strokes_json snapshot_with_empty_stroke (GLCanvas_init 128 96)
  = Raised KeyError (set_virtual_time (GLCanvas_init 128 96) 5.0) /\
  ~ (forall (t : json_str) (c c' : GLCanvas) (e : exn),
       import_strokes_json t c = Raised e c' ->
       strokes c' = strokes c /\
       virtual_time c' = virtual_time c /\
       max_virtual_time c' = max_virtual_time c).
Proof.
  assert (Himp : import_strokes_json snapshot_with_empty_stroke
                   (GLCanvas_init 128 96)
                 = Raised KeyError (set_virtual_time (GLCanvas_init 128 96) 5.0))
    by reflexivity.
  split; [exact Himp |].
  intros Hclaim.
  destruct (Hclaim _ _ _ _ Himp) as (_ & Hvt & _).
  simpl in Hvt. lra.
Qed.

(** ** World lines *)

Lemma calc_segments_loop_fst (lh : Z) (ts : list R) :
  forall (i : nat) (prev : R) (indices : list nat) (y : Z)
         (segs : list (list nat)) (ys : list Z),
    fst (calc_segments_loop lh ts i prev indices y segs ys)
    = segs ++ pending_segments ts i prev indices.
Proof.
  induction ts as [| t ts IH]; intros i prev indices y segs ys; simpl.
  - reflexivity.
  - destruct (Rlt_dec t prev); rewrite IH.
    + now rewrite <- app_assoc.
    + reflexivity.
Qed.

Lemma segment_indices_set_stroke_times (times : list R) :
  segment_indices (set_stroke_times times) =
  match times with
  | [] => []
  | t0 :: ts => pending_segments ts 1 t0 [0%nat]
  end.
Proof.
  unfold set_stroke_times, calc_segments. simpl.
  destruct times as [| t0 ts]; [reflexivity |].
  pose proof (calc_segments_loop_fst 12 ts 1 t0 [0%nat] 0 [] []) as Hfst.
  destruct (calc_segments_loop 12 ts 1 t0 [0%nat] 0 [] []) as [segs ys].
  exact Hfst.
Qed.

Lemma skipn_cons_inv {A : Type} (d : A) (l : list A) :
  forall (i : nat) (x : A) (rest : list A),
    skipn i l = x :: rest ->
    (i < length l)%nat /\ nth i l d = x /\ skipn (S i) l = rest.
Proof.
  induction l as [| a l IH]; intros i x rest Hskip.
  - destruct i; discriminate.
  - destruct i as [| i].
    + injection Hskip as <- <-. simpl. repeat split. lia.
    + simpl in Hskip. destruct (IH i x rest Hskip) as (Hlt & Hnth & Hrest).
      simpl. repeat split; [lia | exact Hnth | exact Hrest].
Qed.

Lemma skipn_nil_inv {A : Type} (l : list A) (i : nat) :
  skipn i l = [] -> (length l <= i)%nat.
Proof.
  revert i. induction l as [| a l IH]; intros [| i] Hskip; simpl in *;
    try lia; try discriminate.
  specialize (IH i Hskip). lia.
Qed.

Lemma last_seq (a len : nat) : last (seq a (S len)) 0%nat = (a + len)%nat.
Proof.
  rewrite seq_S. rewrite last_last. reflexivity.
Qed.

Section Runs.
Variable times : list R.

(** The loop invariant: [indices] is the interval [a .. i-1], it is a
    run, and [prev] is the time of its last index. *)
Lemma pending_segments_spec (ts : list R) :
  forall (i a : nat) (prev : R),
    ts = skipn i times ->
    (i <= length times)%nat ->
    (a < i)%nat ->
    prev = time_at times (i - 1) ->
    (forall j : nat, (a <= j)%nat -> (S j < i)%nat ->
                     time_at times j <= time_at times (S j)) ->
    let segs := pending_segments ts i prev (seq a (i - a)) in
    concat segs = seq a (length times - a) /\
    Forall (fun seg => seg <> []) segs /\
    Forall (fun seg => forall j : nat,
                In j seg -> In (S j) seg ->
                time_at times j <= time_at times (S j)) segs /\
    (forall (k : nat) (s1 s2 : list nat),
        nth_error segs k = Some s1 -> nth_error segs (S k) = Some s2 ->
        time_at times (hd 0%nat s2) < time_at times (last s1 0%nat)) /\
    hd 0%nat (hd [] segs) = a.
Proof.
  induction ts as [| t ts IH]; intros i a prev Hts Hi Ha Hprev Hrun segs.
  - (* the loop is over: the open run is the last segment *)
    symmetry in Hts. apply skipn_nil_inv in Hts.
    assert (i = length times) by lia. subst i segs. simpl.
    assert (Hne : seq a (length times - a) <> []).
    { destruct (length times - a)%nat eqn:Hlen; [lia | discriminate]. }
    repeat split.
    + now rewrite app_nil_r.
    + now constructor.
    + constructor; [| constructor].
      intros j Hj HSj. apply in_seq in Hj, HSj. apply Hrun; lia.
    + intros [| k] s1 s2 _ H2; simpl in H2; [discriminate |].
      destruct k; discriminate.
    + destruct (length times - a)%nat eqn:Hlen; [lia | reflexivity].
  - symmetry in Hts.
    destruct (skipn_cons_inv 0 times i t ts Hts) as (Hlt & Hnth & Hrest).
    assert (Ht : t = time_at times i) by (symmetry; exact Hnth).
    subst segs. simpl.
    destruct (Rlt_dec t prev) as [Hdrop | Hkeep].
    + (* a strictly smaller time closes the run and opens [i] *)
      destruct (IH (S i) i t) as (Hcat & Hne & Hsorted & Hcut & Hhd);
        try (symmetry; exact Hrest); try lia.
      { now replace (S i - 1)%nat with i by lia. }
      replace (S i - i)%nat with 1%nat in * by lia.
      change (seq i 1) with [i] in *.
      assert (Hopen : seq a (i - a) <> []).
      { destruct (i - a)%nat eqn:Hlen; [lia | discriminate]. }
      repeat split.
      * simpl. rewrite Hcat.
        replace (length times - a)%nat
          with ((i - a) + (length times - i))%nat by lia.
        rewrite seq_app. now replace (a + (i - a))%nat with i by lia.
      * now constructor.
      * constructor; [| exact Hsorted].
        intros j Hj HSj. apply in_seq in Hj, HSj. apply Hrun; lia.
      * intros [| k] s1 s2 H1 H2; simpl in H1, H2.
        -- injection H1 as <-.
           destruct (pending_segments ts (S i) t [i]) as [| s segs'];
             [discriminate |].
           simpl in H2, Hhd. injection H2 as <-. rewrite Hhd.
           replace (i - a)%nat with (S (i - a - 1)) by lia.
           rewrite last_seq.
           replace (a + (i - a - 1))%nat with (i - 1)%nat by lia.
           rewrite <- Ht, <- Hprev. exact Hdrop.
        -- exact (Hcut k s1 s2 H1 H2).
      * destruct (i - a)%nat eqn:Hlen; [lia | reflexivity].
    + (* otherwise the run grows by [i] *)
      replace (seq a (i - a) ++ [i]) with (seq a (S i - a)).
      2:{ replace (S i - a)%nat with (S (i - a)) by lia.
          rewrite seq_S. now replace (a + (i - a))%nat with i by lia. }
      apply IH; try (symmetry; exact Hrest); try lia.
      * now replace (S i - 1)%nat with i by lia.
      * intros j Hj HSj.
        destruct (Nat.eq_dec (S j) i) as [Heq | Hneq].
        -- rewrite Heq. replace j with (i - 1)%nat by lia.
           rewrite <- Hprev, <- Ht. lra.
        -- apply Hrun; lia.
Qed.
End Runs.

(** C6: [calc_segments] cuts the stroke indices into the world lines of
    their creation times (maximal runs of non-decreasing times, a strictly
    smaller time starting the next one); the times [1,2,3,1,2] give the
    two segments [0,1,2] and [3,4]. *)
Theorem calc_segments_world_lines (times : list R) :
  world_lines times (segment_indices (set_stroke_times times)) /\
  segment_indices (set_stroke_times [1; 2; 3; 1; 2])
  = [[0; 1; 2]; [3; 4]]%nat.
Proof.
  split.
  - rewrite segment_indices_set_stroke_times.
    destruct times as [| t0 ts].
    + repeat split; try constructor.
      intros [| k] s1 s2 H1; discriminate.
    + destruct (pending_segments_spec (t0 :: ts) ts 1 0 t0)
        as (Hcat & Hne & Hsorted & Hcut & _);
        try reflexivity; simpl; try lia.
      simpl in Hcat, Hne, Hsorted, Hcut.
      repeat split; assumption.
  - rewrite segment_indices_set_stroke_times. simpl.
    repeat (case_Rlt; try lra; simpl).
    reflexivity.
Qed.

(** Equal times stay on one world line; each segment gets its own row,
    [line_height + 2] pixels below the previous one. *)
Example calc_segments_ties :
  segment_indices (set_stroke_times [2; 2; 1]) = [[0; 1]; [2]]%nat /\
  segment_ys (set_stroke_times [2; 2; 1]) = [0; 14]%Z /\
  segment_indices (set_stroke_times []) = [].
Proof.
  unfold set_stroke_times, calc_segments. simpl.
  repeat (case_Rlt; try lra; simpl).
  repeat split.
Qed.

(** ** Frames and resurrection *)

Lemma rewind_check_frame (c : GLCanvas) :
  rewind_check c = c \/
  (virtual_time c < last_virtual_time c /\
   rewind_check c = set_strokes c (map (set_is_visible true) (strokes c))).
Proof.
  unfold rewind_check. destruct (Rlt_dec _ _); [right | left]; auto.
Qed.

Lemma rewind_check_clears (c : GLCanvas) :
  virtual_time c < last_virtual_time c ->
  rewind_check c = set_strokes c (map (set_is_visible true) (strokes c)).
Proof.
  intros Hback. unfold rewind_check.
  destruct (Rlt_dec _ _); [reflexivity | contradiction].
Qed.

(** A completed frame: the strokes as the rewind check left them, decayed
    at the current time with the factor the controller just computed. *)
Lemma paintEvent_returned (gpu : rasteriser) (cw ch : Z) (c c' : GLCanvas) :
  paintEvent gpu cw ch c = Returned c' ->
  exists density,
    render_density_map gpu cw ch (rewind_check c) = inr density /\
    let c2 := controller_update (global_density density) (rewind_check c) in
    strokes c' = map (decay_stroke c2 (virtual_time c))
                     (strokes (rewind_check c)) /\
    last_virtual_time c' = virtual_time c /\
    virtual_time c' = virtual_time c.
Proof.
  unfold paintEvent.
  destruct (render_density_map gpu cw ch (rewind_check c)) as [e | d] eqn:Hmap;
    [discriminate |].
  intros [= <-]. exists d. split; [reflexivity |]. simpl.
  destruct (rewind_check_frame c) as [-> | [_ ->]]; repeat split.
Qed.

Lemma paintEvent_total (gpu : rasteriser) (cw ch : Z) (c : GLCanvas) :
  cw <> 0%Z -> ch <> 0%Z -> exists c', paintEvent gpu cw ch c = Returned c'.
Proof.
  intros Hw Hh. unfold paintEvent.
  destruct (render_density_map_total gpu cw ch (rewind_check c) Hw Hh)
    as [d ->].
  now eexists.
Qed.

Lemma paintEvent_raised (gpu : rasteriser) (cw ch : Z) (c c' : GLCanvas)
    (e : exn) :
  paintEvent gpu cw ch c = Raised e c' -> c' = rewind_check c.
Proof.
  unfold paintEvent.
  destruct (render_density_map gpu cw ch (rewind_check c)); [| discriminate].
  now intros [= _ <-].
Qed.

(** What a visible stroke becomes in the decay pass: not retired at a
    time up to and including its creation, never retired at that time. *)
Lemma decay_stroke_retired (k : GLCanvas) (now : R) (s : Stroke) :
  is_visible s = true ->
  is_visible (decay_stroke k now s) = false ->
  time_created s < now /\ base_alpha (decay_stroke k now s) = 0.
Proof.
  intros Hvis. unfold decay_stroke. rewrite Hvis. simpl.
  destruct (Rlt_dec (now - time_created s) 0) as [Hneg | Hage]; simpl;
    [congruence |].
  destruct (Rlt_dec _ 0.001) as [Hlow | Hhigh]; simpl; [| congruence].
  intros _. split; [| lra].
  destruct (Req_dec (now - time_created s) 0) as [Hzero | Hpos]; [| lra].
  rewrite Hzero, Rmult_0_r, exp_0 in Hlow. lra.
Qed.

Lemma decay_stroke_time (k : GLCanvas) (now : R) (s : Stroke) :
  time_created (decay_stroke k now s) = time_created s /\
  points (decay_stroke k now s) = points s.
Proof.
  unfold decay_stroke.
  destruct (is_visible s); simpl; [| now split].
  destruct (Rlt_dec _ 0); simpl; [now split |].
  destruct (Rlt_dec _ 0.001); now split.
Qed.

Lemma retired_in_the_past_ext (c c' : GLCanvas) :
  strokes c' = strokes c ->
  last_virtual_time c' = last_virtual_time c ->
  retired_in_the_past c -> retired_in_the_past c'.
Proof.
  unfold retired_in_the_past. now intros -> ->.
Qed.

Lemma retired_in_the_past_visible (c : GLCanvas) :
  Forall (fun s => is_visible s = true) (strokes c) ->
  retired_in_the_past c.
Proof.
  unfold retired_in_the_past. apply Forall_impl. intros s Hvis. congruence.
Qed.

Lemma rewind_check_invariant (c : GLCanvas) :
  retired_in_the_past c -> retired_in_the_past (rewind_check c).
Proof.
  intros Hinv. destruct (rewind_check_frame c) as [-> | [_ ->]]; [exact Hinv |].
  apply retired_in_the_past_visible. simpl.
  apply Forall_map, Forall_forall. now intros s _.
Qed.

Lemma rewind_check_not_back (c : GLCanvas) (s : Stroke) :
  In s (strokes (rewind_check c)) ->
  is_visible s = false ->
  last_virtual_time c <= virtual_time c /\ In s (strokes c).
Proof.
  unfold rewind_check. destruct (Rlt_dec _ _) as [Hback | Hfwd]; simpl.
  - intros Hin Hret. apply in_map_iff in Hin as (s0 & <- & _). discriminate.
  - intros Hin _. split; [lra | exact Hin].
Qed.

Lemma paintEvent_invariant (gpu : rasteriser) (cw ch : Z) (c : GLCanvas) :
  retired_in_the_past c ->
  retired_in_the_past (state_of (paintEvent gpu cw ch c)).
Proof.
  intros Hinv.
  destruct (paintEvent gpu cw ch c) as [c' | e c'] eqn:Hpaint; simpl.
  - destruct (paintEvent_returned _ _ _ _ _ Hpaint)
      as (d & _ & Hstrokes & Hlast & _).
    unfold retired_in_the_past. rewrite Hstrokes, Hlast.
    apply Forall_map, Forall_forall. intros s Hin Hret.
    destruct (is_visible s) eqn:Hvis.
    + rewrite (proj1 (decay_stroke_time _ _ s)).
      now apply decay_stroke_retired.
    + destruct (rewind_check_not_back c s Hin Hvis) as [Hfwd Hin'].
      unfold retired_in_the_past in Hinv. rewrite Forall_forall in Hinv.
      destruct (Hinv s Hin' Hvis) as [Hpast Hzero].
      unfold decay_stroke. rewrite Hvis. simpl. split; [lra | exact Hzero].
  - apply paintEvent_raised in Hpaint as ->.
    now apply rewind_check_invariant.
Qed.

Lemma mouseReleaseEvent_invariant (lb : bool) (c : GLCanvas) :
  retired_in_the_past c -> retired_in_the_past (mouseReleaseEvent lb c).
Proof.
  intros Hinv. unfold mouseReleaseEvent.
  destruct (lb && _); [| exact Hinv].
  unfold retired_in_the_past in *.
  destruct (Rlt_dec _ _); simpl; apply Forall_app; split; trivial;
    constructor; trivial; simpl; congruence.
Qed.

Lemma import_invariant (t : json_str) (c : GLCanvas) :
  retired_in_the_past c ->
  retired_in_the_past (state_of (import_strokes_json t c)).
Proof.
  intros Hinv.
  destruct (import_strokes_json t c) as [c' | e c'] eqn:Himp; simpl.
  - apply retired_in_the_past_visible.
    exact (import_returned_visible t c c' Himp).
  - destruct (import_raised_frame t c c' e Himp) as [-> | [-> | ->]];
      trivial; now apply (retired_in_the_past_ext c).
Qed.

Lemma step_invariant (c : GLCanvas) (e : event) :
  retired_in_the_past c -> retired_in_the_past (step c e).
Proof.
  intros Hinv. destruct e; simpl.
  - unfold mousePressEvent. destruct lb; exact Hinv.
  - unfold mouseMoveEvent. destruct lb; exact Hinv.
  - now apply mouseReleaseEvent_invariant.
  - destruct (timer_active c); exact Hinv.
  - exact Hinv.
  - exact Hinv.
  - exact Hinv.
  - exact Hinv.
  - apply retired_in_the_past_visible. constructor.
  - now apply import_invariant.
  - now apply paintEvent_invariant.
Qed.

Lemma reachable_invariant (c : GLCanvas) :
  reachable c -> retired_in_the_past c.
Proof.
  intros (dw & dh & es & ->). unfold run.
  assert (Hinit : retired_in_the_past (GLCanvas_init dw dh)) by constructor.
  revert Hinit. generalize (GLCanvas_init dw dh).
  induction es as [| e es IH]; intros c Hinv; simpl; [exact Hinv |].
  apply IH. now apply step_invariant.
Qed.

(** C3: on a canvas the program can reach, a retired stroke has alpha 0
    and was retired by a frame later than its creation time [T]; hence
    seeking to [T] makes the next frame a rewind frame, which clears every
    retirement flag before the decay pass, and that frame (painted on a
    non-empty viewport) leaves the stroke with alpha 1.0 and not retired.
    In every rewind frame the decay pass runs on the strokes with all
    flags cleared. *)
Theorem rewind_restores_visibility (c : GLCanvas) (i : nat) (s : Stroke) :
  reachable c ->
  nth_error (strokes c) i = Some s ->
  is_visible s = false ->
  let back := set_virtual_time c (time_created s) in
  base_alpha s = 0 /\
  virtual_time back < last_virtual_time back /\
  (forall (k : GLCanvas) gpu cw ch k',
      virtual_time k < last_virtual_time k ->
      paintEvent gpu cw ch k = Returned k' ->
      Forall (fun s' => is_visible s' = true) (strokes (rewind_check k)) /\
      exists k2,
        strokes k' = map (decay_stroke k2 (virtual_time k))
                         (map (set_is_visible true) (strokes k))) /\
  (forall gpu cw ch, cw <> 0%Z -> ch <> 0%Z ->
     exists c' s',
       paintEvent gpu cw ch back = Returned c' /\
       nth_error (strokes c') i = Some s' /\
       base_alpha s' = 1.0 /\ is_visible s' = true /\
       points s' = points s /\ time_created s' = time_created s).
Proof.
  intros Hreach Hnth Hret back.
  pose proof (reachable_invariant c Hreach) as Hinv.
  unfold retired_in_the_past in Hinv. rewrite Forall_forall in Hinv.
  destruct (Hinv s (nth_error_In _ _ Hnth) Hret) as [Hpast Hzero].
  assert (Hback : virtual_time back < last_virtual_time back) by exact Hpast.
  split; [exact Hzero |]. split; [exact Hback |]. split.
  - intros k gpu cw ch k' Hk Hpaint.
    destruct (paintEvent_returned _ _ _ _ _ Hpaint) as (d & _ & Hstrokes & _).
    rewrite (rewind_check_clears k Hk) in Hstrokes |- *. simpl in *. split.
    + apply Forall_map, Forall_forall. now intros s' _.
    + eexists. exact Hstrokes.
  - intros gpu cw ch Hw Hh.
    destruct (paintEvent_total gpu cw ch back Hw Hh) as [c' Hpaint].
    destruct (paintEvent_returned _ _ _ _ _ Hpaint) as (d & _ & Hstrokes & _).
    rewrite (rewind_check_clears back Hback) in Hstrokes. simpl in Hstrokes.
    set (k2 := controller_update _ _) in Hstrokes.
    exists c', (decay_stroke k2 (time_created s) (set_is_visible true s)).
    split; [exact Hpaint |]. split.
    + rewrite Hstrokes, !nth_error_map, Hnth. reflexivity.
    + destruct (decay_stroke_at_creation k2 (set_is_visible true s) eq_refl)
        as [Halpha Hvis].
      destruct (decay_stroke_time k2 (time_created s) (set_is_visible true s))
        as [Htime Hpoints].
      simpl in *. auto.
Qed.

(** *** A session in which a stroke retires and is resurrected *)

Lemma exp_neg_small (x : R) : 20 <= x -> exp (- x) < 0.001.
Proof.
  intros Hx.
  assert (H5 : 6 < exp 5).
  { pose proof (exp_ineq1 5). lra. }
  assert (H20 : 1296 < exp 20).
  { replace 20 with ((5 + 5) + (5 + 5)) by lra.
    rewrite !exp_plus.
    assert (H10 : 36 < exp 5 * exp 5) by nra.
    nra. }
  assert (Hbig : 1296 < exp x).
  { pose proof (exp_le_mono 20 x Hx). lra. }
  rewrite exp_Ropp.
  apply Rlt_trans with (/ 1296); [| lra].
  apply Rinv_lt_contravar; [nra | exact Hbig].
Qed.

Lemma decay_stroke_old (k : GLCanvas) (now : R) (s : Stroke) :
  is_visible s = true ->
  0 <= now - time_created s ->
  20 <= lambda_base k * lambdas_factor k * (now - time_created s) ->
  decay_stroke k now s = set_is_visible false (set_base_alpha 0.0 s).
Proof.
  intros Hvis Hage Hold. unfold decay_stroke. rewrite Hvis. simpl.
  destruct (Rlt_dec _ 0); [lra |].
  destruct (Rlt_dec _ 0.001) as [_ | Hhigh]; [reflexivity |].
  exfalso. apply Hhigh.
  rewrite <- Ropp_mult_distr_l. now apply exp_neg_small.
Qed.

(** With the constants of [__init__] the factor never drops below 0.85. *)
Lemma factor_floor (gd : R) (c : GLCanvas) :
  target_density c = 0.05 -> hysteresis c = 0.02 -> lambda_k c = 3.0 ->
  0 <= gd ->
  0.85 <= lambdas_factor (controller_update gd c).
Proof.
  intros Ht Hh Hk Hgd. rewrite controller_update_factor, Ht, Hh, Hk.
  unfold py_max, py_min. repeat case_Rlt; case_Rabs; lra.
Qed.

Lemma retiring_session_before_frame :
  run (firstn 4 retiring_session) (GLCanvas_init 2 2) =
  mkGLCanvas [sample_stroke 0.0] [] 2 2 0.05 0.02 0.1 3.0 1.0
             (IZR 100 / 100.0 * timeline_max) 0.0 0.0 false.
Proof.
  unfold run, retiring_session, firstn, fold_left, step.
  unfold mousePressEvent, mouseMoveEvent, mouseReleaseEvent,
    on_timeline_slider, GLCanvas_init, sample_stroke. simpl.
  destruct (Rlt_dec 0.0 0.0); [lra | reflexivity].
Qed.

Lemma retiring_session_strokes :
  strokes (run retiring_session (GLCanvas_init 2 2)) =
  [set_is_visible false (set_base_alpha 0.0 (sample_stroke 0.0))].
Proof.
  change retiring_session
    with (firstn 4 retiring_session ++ [Paint half_covered 800 600]).
  unfold run. rewrite fold_left_app.
  fold (run (firstn 4 retiring_session) (GLCanvas_init 2 2)).
  rewrite retiring_session_before_frame. simpl.
  set (c := mkGLCanvas _ _ _ _ _ _ _ _ _ _ _ _ _).
  assert (Hnow : virtual_time c = 300) by (simpl; unfold timeline_max; lra).
  destruct (paintEvent_total half_covered 800 600 c) as [c' Hpaint];
    [lia | lia |].
  rewrite Hpaint. simpl.
  destruct (paintEvent_returned _ _ _ _ _ Hpaint) as (d & Hmap & Hstrokes & _).
  assert (Hsame : rewind_check c = c).
  { unfold rewind_check. rewrite Hnow. simpl.
    destruct (Rlt_dec 300 0.0); [lra | reflexivity]. }
  rewrite Hsame in Hmap, Hstrokes.
  assert (Hd : 0 <= global_density d <= 1).
  { apply (render_density_map_unit half_covered 800 600 c); [simpl; lia |].
    exact Hmap. }
  rewrite Hstrokes.
  change (strokes c) with [sample_stroke 0.0]. cbn [map].
  rewrite decay_stroke_old; try reflexivity.
  - rewrite Hnow. simpl. lra.
  - pose proof (factor_floor (global_density d) c eq_refl eq_refl eq_refl
                  (proj1 Hd)) as Hfloor.
    rewrite Hnow.
    change (time_created (sample_stroke 0.0)) with 0.0.
    change (lambda_base (controller_update (global_density d) c)) with 0.1.
    nra.
Qed.

Lemma rewind_restores_visibility_witness :
  exists c' s',
    paintEvent half_covered 800 600
      (set_virtual_time (run retiring_session (GLCanvas_init 2 2)) 0.0)
    = Returned c' /\
    nth_error (strokes c') 0 = Some s' /\
    base_alpha s' = 1.0 /\ is_visible s' = true.
Proof.
  destruct (rewind_restores_visibility
              (run retiring_session (GLCanvas_init 2 2)) 0
              (set_is_visible false (set_base_alpha 0.0 (sample_stroke 0.0))))
    as (_ & _ & _ & Hframe).
  - now exists 2%nat, 2%nat, retiring_session.
  - now rewrite retiring_session_strokes.
  - reflexivity.
  - destruct (Hframe half_covered 800%Z 600%Z) as (c' & s' & H);
      [lia | lia |].
    exists c', s'. tauto.
Defined.

(** * Further properties of the module *)

(** ** Curve flattening *)

(** Both halves of a subdivision are sixteen times flatter. *)
Lemma _flat_halves (a b c : point2) :
  let ab := ((fst a + fst b) / 2.0, (snd a + snd b) / 2.0) in
  let bc := ((fst b + fst c) / 2.0, (snd b + snd c) / 2.0) in
  let abc := ((fst ab + fst bc) / 2.0, (snd ab + snd bc) / 2.0) in
  _flat a ab abc = _flat a b c / 16 /\ _flat abc bc c = _flat a b c / 16.
Proof.
  destruct a as [ax ay], b as [bx by_], c as [cx cy].
  unfold _flat. simpl.
  replace 2.0 with 2 by lra. replace 4.0 with 4 by lra.
  split; field.
Qed.

Lemma _recurse_S (fuel : nat) (tol : R) (a b c : point2) :
  _recurse (S fuel) tol a b c =
  if Rle_dec (_flat a b c) (tol * tol) then Some [c]
  else
    let ab := ((fst a + fst b) / 2.0, (snd a + snd b) / 2.0) in
    let bc := ((fst b + fst c) / 2.0, (snd b + snd c) / 2.0) in
    let abc := ((fst ab + fst bc) / 2.0, (snd ab + snd bc) / 2.0) in
    match _recurse fuel tol a ab abc with
    | None => None
    | Some left_pts =>
        match _recurse fuel tol abc bc c with
        | None => None
        | Some right_pts => Some (left_pts ++ right_pts)
        end
    end.
Proof. reflexivity. Qed.

Lemma last_app_ne {A : Type} (l l' : list A) (d : A) :
  l' <> [] -> last (l ++ l') d = last l' d.
Proof.
  intros Hne. induction l as [| x l IH]; [reflexivity |].
  simpl. rewrite IH.
  destruct (l ++ l') eqn:Happ; [| reflexivity].
  apply app_eq_nil in Happ as [_ ->]. congruence.
Qed.

Lemma last_is_not_nil {A : Type} (pts : list A) (c c' : A) :
  c <> c' -> (forall d, last pts d = c) -> pts <> [].
Proof.
  intros Hne Hlast ->. specialize (Hlast c'). simpl in Hlast. congruence.
Qed.

Lemma point2_shift (c : point2) : c <> (fst c + 1, snd c).
Proof. destruct c as [x y]. simpl. intros [= Hx]. lra. Qed.

Lemma _recurse_depth (tol : R) (n : nat) :
  forall a b c : point2,
    _flat a b c <= tol * tol * 16 ^ n ->
    exists pts, _recurse (S n) tol a b c = Some pts /\
                forall d, last pts d = c.
Proof.
  induction n as [| n IH]; intros a b c Hflat; rewrite _recurse_S.
  - simpl in Hflat. destruct (Rle_dec _ _) as [_ | Hn]; [| lra].
    exists [c]. split; [reflexivity | now intros d].
  - destruct (Rle_dec (_flat a b c) (tol * tol)) as [_ | _].
    + exists [c]. split; [reflexivity | now intros d].
    + destruct (_flat_halves a b c) as [Hl Hr]. cbv zeta in Hl, Hr |- *.
      simpl pow in Hflat.
      match type of Hl with
      | _flat ?x ?y ?z = _ =>
          destruct (IH x y z) as (l & -> & _); [rewrite Hl; lra |]
      end.
      match type of Hr with
      | _flat ?x ?y ?z = _ =>
          destruct (IH x y z) as (r & -> & Hlast); [rewrite Hr; lra |]
      end.
      exists (l ++ r). split; [reflexivity |].
      intros d. rewrite last_app_ne; [apply Hlast |].
      exact (last_is_not_nil r c _ (point2_shift c) Hlast).
Qed.

Lemma _recurse_more_fuel (tol : R) (n : nat) :
  forall (a b c : point2) (pts : list point2) (m : nat),
    _recurse n tol a b c = Some pts -> (n <= m)%nat ->
    _recurse m tol a b c = Some pts.
Proof.
  induction n as [| n IH]; intros a b c pts m Hrun Hle; [discriminate |].
  destruct m as [| m]; [lia |].
  rewrite _recurse_S in *. cbv zeta in *.
  destruct (Rle_dec _ _); [exact Hrun |].
  destruct (_recurse n tol a _ _) as [l |] eqn:Hl; [| discriminate].
  destruct (_recurse n tol _ _ c) as [r |] eqn:Hr; [| discriminate].
  rewrite (IH _ _ _ _ m Hl), (IH _ _ _ _ m Hr) by lia.
  exact Hrun.
Qed.

Lemma pow16_unbounded (x : R) : exists n : nat, x <= 16 ^ n.
Proof.
  destruct (Pow_x_infinity 16) with (b := x) as [N HN].
  - rewrite Rabs_pos_eq; lra.
  - exists N. specialize (HN N (Nat.le_refl N)).
    rewrite Rabs_pos_eq in HN; [lra |].
    apply pow_le. lra.
Qed.

(** X1: for any non-zero tolerance the subdivision comes back at some
    finite depth (and then at every greater one, with the same points);
    the polyline starts at [p0] and ends at [p2]. *)
Theorem flatten_quadratic_bezier_endpoints (p0 p1 p2 : point2) (tol : R) :
  tol <> 0 ->
  exists (fuel : nat) (pts : list point2),
    (forall fuel', (fuel <= fuel')%nat ->
                   flatten_quadratic_bezier fuel' p0 p1 p2 tol = Some pts) /\
    hd p2 pts = p0 /\
    last pts p0 = p2 /\
    (2 <= length pts)%nat.
Proof.
  intros Htol.
  assert (Hsq : 0 < tol * tol) by nra.
  destruct (pow16_unbounded (_flat p0 p1 p2 / (tol * tol))) as [n Hn].
  assert (Hflat : _flat p0 p1 p2 <= tol * tol * 16 ^ n).
  { apply (Rmult_le_compat_l (tol * tol)) in Hn; [| lra].
    replace (tol * tol * (_flat p0 p1 p2 / (tol * tol)))
      with (_flat p0 p1 p2) in Hn by (field; lra).
    exact Hn. }
  destruct (_recurse_depth tol n p0 p1 p2 Hflat) as (pts & Hrun & Hlast).
  exists (S n), (p0 :: pts). repeat split.
  - intros fuel' Hle. unfold flatten_quadratic_bezier.
    now rewrite (_recurse_more_fuel tol (S n) _ _ _ pts fuel' Hrun Hle).
  - pose proof (last_is_not_nil pts p2 _ (point2_shift p2) Hlast) as Hne.
    destruct pts as [| q pts]; [congruence | exact (Hlast p0)].
  - pose proof (last_is_not_nil pts p2 _ (point2_shift p2) Hlast) as Hne.
    destruct pts as [| q pts]; [congruence | simpl; lia].
Qed.

Lemma flatten_quadratic_bezier_endpoints_witness :
  exists (fuel : nat) (pts : list point2),
    flatten_quadratic_bezier fuel (0, 0) (50, 100) (100, 0) 0.5 = Some pts /\
    hd (100, 0) pts = (0, 0) /\ last pts (0, 0) = (100, 0).
Proof.
  destruct (flatten_quadratic_bezier_endpoints (0, 0) (50, 100) (100, 0) 0.5)
    as (fuel & pts & Hrun & Hhd & Hlast & _); [lra |].
  exists fuel, pts. split; [apply Hrun; lia | now split].
Defined.

(** ** Bounding box *)

Lemma fold_py_min_spec (xs : list R) :
  forall x0 : R,
    let m := fold_left py_min xs x0 in
    In m (x0 :: xs) /\ Forall (fun x => m <= x) (x0 :: xs).
Proof.
  induction xs as [| x xs IH]; intros x0; simpl.
  - split; [now left | constructor; [lra | constructor]].
  - destruct (IH (py_min x0 x)) as [Hin Hall].
    inversion Hall as [| ? ? Hhead Htail]; subst.
    unfold py_min in Hin, Hhead, Htail |- *.
    destruct (Rlt_dec x x0) as [Hlt | Hge]; split.
    + destruct Hin as [<- | Hin]; [right; now left | right; now right].
    + constructor; [lra |]. constructor; assumption.
    + destruct Hin as [<- | Hin]; [now left | right; now right].
    + constructor; [assumption |]. constructor; [lra | assumption].
Qed.

Lemma fold_py_max_spec (xs : list R) :
  forall x0 : R,
    let m := fold_left py_max xs x0 in
    In m (x0 :: xs) /\ Forall (fun x => x <= m) (x0 :: xs).
Proof.
  induction xs as [| x xs IH]; intros x0; simpl.
  - split; [now left | constructor; [lra | constructor]].
  - destruct (IH (py_max x0 x)) as [Hin Hall].
    inversion Hall as [| ? ? Hhead Htail]; subst.
    unfold py_max in Hin, Hhead, Htail |- *.
    destruct (Rlt_dec x0 x) as [Hlt | Hge]; split.
    + destruct Hin as [<- | Hin]; [right; now left | right; now right].
    + constructor; [lra |]. constructor; assumption.
    + destruct Hin as [<- | Hin]; [now left | right; now right].
    + constructor; [assumption |]. constructor; [lra | assumption].
Qed.

Lemma py_min_seq_spec (xs : list R) (m : R) :
  py_min_seq xs = Some m -> In m xs /\ Forall (fun x => m <= x) xs.
Proof.
  destruct xs as [| x0 xs]; [discriminate |].
  intros [= <-]. apply fold_py_min_spec.
Qed.

Lemma py_max_seq_spec (xs : list R) (m : R) :
  py_max_seq xs = Some m -> In m xs /\ Forall (fun x => x <= m) xs.
Proof.
  destruct xs as [| x0 xs]; [discriminate |].
  intros [= <-]. apply fold_py_max_spec.
Qed.

(** X2: [bbox] fails exactly on a stroke without points; otherwise the
    box contains every point and each of its four sides passes through a
    point of the stroke. *)
Theorem bbox_tight (s : Stroke) :
  (bbox s = None <-> points s = []) /\
  forall x0 y0 x1 y1 : R,
    bbox s = Some (x0, y0, x1, y1) ->
    Forall (fun p : point => x0 <= fst (fst p) <= x1 /\
                             y0 <= snd (fst p) <= y1) (points s) /\
    (exists p, In p (points s) /\ fst (fst p) = x0) /\
    (exists p, In p (points s) /\ snd (fst p) = y0) /\
    (exists p, In p (points s) /\ fst (fst p) = x1) /\
    (exists p, In p (points s) /\ snd (fst p) = y1).
Proof.
  unfold bbox. split.
  - destruct (points s) as [| p ps]; simpl; split; congruence.
  - intros x0 y0 x1 y1.
    destruct (py_min_seq _) as [a |] eqn:Hx0; [| discriminate].
    destruct (py_min_seq (map _ _)) as [b |] eqn:Hy0 in |- *; [| discriminate].
    destruct (py_max_seq _) as [a' |] eqn:Hx1; [| discriminate].
    destruct (py_max_seq (map _ _)) as [b' |] eqn:Hy1 in |- *; [| discriminate].
    intros [= <- <- <- <-].
    apply py_min_seq_spec in Hx0 as [Hinx0 Hlox], Hy0 as [Hiny0 Hloy].
    apply py_max_seq_spec in Hx1 as [Hinx1 Hhix], Hy1 as [Hiny1 Hhiy].
    rewrite Forall_map in Hlox, Hloy, Hhix, Hhiy.
    rewrite in_map_iff in Hinx0, Hiny0, Hinx1, Hiny1.
    split.
    + rewrite Forall_forall in *. intros p Hp.
      specialize (Hlox p Hp). specialize (Hloy p Hp).
      specialize (Hhix p Hp). specialize (Hhiy p Hp). simpl in *. lra.
    + repeat split.
      * destruct Hinx0 as (p & Hp & Hin). now exists p.
      * destruct Hiny0 as (p & Hp & Hin). now exists p.
      * destruct Hinx1 as (p & Hp & Hin). now exists p.
      * destruct Hiny1 as (p & Hp & Hin). now exists p.
Qed.

Lemma bbox_tight_witness :
  exists x0 y0 x1 y1 : R,
    bbox (sample_stroke 0) = Some (x0, y0, x1, y1) /\
    Forall (fun p : point => x0 <= fst (fst p) <= x1 /\
                             y0 <= snd (fst p) <= y1)
           (points (sample_stroke 0)).
Proof.
  destruct (bbox (sample_stroke 0)) as [[[[x0 y0] x1] y1] |] eqn:Hbox.
  - exists x0, y0, x1, y1. split; [reflexivity |].
    exact (proj1 (proj2 (bbox_tight (sample_stroke 0)) x0 y0 x1 y1 Hbox)).
  - apply (proj1 (bbox_tight (sample_stroke 0))) in Hbox. discriminate.
Defined.

(** ** Geometry sent to the rasteriser *)

Lemma py_div_inv (x : R) (n : Z) (r : result R) :
  py_div x n = r ->
  (n = 0%Z /\ r = inl ZeroDivisionError) \/
  (n <> 0%Z /\ r = inr (x / IZR n)).
Proof.
  unfold py_div. destruct (Z.eqb_spec n 0); intros <-; [left | right]; auto.
Qed.

(** The three outcomes of the inner loop body. *)
Lemma segment_verts_cases (s : Stroke) (cw ch : Z) (x0 y0 pr0 x1 y1 pr1 : R) :
  let dx := x1 - x0 in
  let dy := y1 - y0 in
  let seg_len := sqrt (dx * dx + dy * dy) in
  let r := segment_verts s cw ch (x0, y0, pr0) (x1, y1, pr1) in
  (seg_len < 1e-6 /\ r = inr []) \/
  (1e-6 <= seg_len /\ (cw = 0%Z \/ ch = 0%Z) /\ r = inl ZeroDivisionError) \/
  (1e-6 <= seg_len /\ cw <> 0%Z /\ ch <> 0%Z /\
   let ox := - dy / seg_len * (width s / 2.0 / IZR cw * 2) in
   let oy := dx / seg_len * (width s / 2.0 / IZR ch * 2) in
   let ax := x0 / IZR cw * 2 - 1 in
   let ay := (1.0 - y0 / IZR ch) * 2 - 1 in
   let bx := x1 / IZR cw * 2 - 1 in
   let by_ := (1.0 - y1 / IZR ch) * 2 - 1 in
   r = inr [ax + ox; ay + oy; bx + ox; by_ + oy; ax - ox; ay - oy;
            bx + ox; by_ + oy; bx - ox; by_ - oy; ax - ox; ay - oy]).
Proof.
  intros dx dy seg_len r. subst r. unfold segment_verts.
  fold dx dy seg_len.
  destruct (Rlt_dec seg_len 1e-6) as [Hshort | Hlong]; [left; now split |].
  right. assert (Hlen : 1e-6 <= seg_len) by lra.
  destruct (Z.eq_dec cw 0) as [-> | Hw].
  - left. repeat split; auto.
  - rewrite !(py_div_nonzero _ cw Hw).
    destruct (Z.eq_dec ch 0) as [-> | Hh].
    + left. repeat split; auto.
    + right. rewrite !(py_div_nonzero _ ch Hh). simpl. repeat split; auto.
Qed.




Lemma segment_verts_length (s : Stroke) (cw ch : Z) (p0 p1 : point)
    (q : list R) :
  segment_verts s cw ch p0 p1 = inr q -> length q = 0%nat \/ length q = 12%nat.
Proof.
  destruct p0 as [[x0 y0] pr0], p1 as [[x1 y1] pr1]. intros Hq.
  destruct (segment_verts_cases s cw ch x0 y0 pr0 x1 y1 pr1)
    as [[_ Hr] | [(_ & _ & Hr) | (_ & _ & _ & Hr)]];
    rewrite Hq in Hr; try discriminate; injection Hr as ->; auto.
Qed.

Lemma stroke_verts_length (s : Stroke) (cw ch : Z) (pts : list point) :
  forall q, stroke_verts s cw ch pts = inr q ->
            exists k, length q = (12 * k)%nat.
Proof.
  induction pts as [| p0 [| p1 rest] IH]; intros q Hq.
  - injection Hq as <-. now exists 0%nat.
  - injection Hq as <-. now exists 0%nat.
  - change (stroke_verts s cw ch (p0 :: p1 :: rest))
      with (q <- segment_verts s cw ch p0 p1 ;;
            r <- stroke_verts s cw ch (p1 :: rest) ;; ret (q ++ r)) in Hq.
    destruct (segment_verts s cw ch p0 p1) as [e | q0] eqn:Hseg;
      [discriminate |].
    destruct (stroke_verts s cw ch (p1 :: rest)) as [e | r] eqn:Hrest;
      [discriminate |].
    injection Hq as <-. destruct (IH r eq_refl) as [k Hk].
    rewrite length_app, Hk.
    destruct (segment_verts_length _ _ _ _ _ _ Hseg) as [-> | ->].
    + now exists k.
    + exists (S k). lia.
Qed.

(** X4: the vertex array handed to the rasteriser always holds whole
    quads: twelve floats (two triangles) per segment drawn. *)
Theorem all_verts_whole_quads (now : R) (cw ch : Z) (ss : list Stroke)
    (verts : list R) :
  all_verts now cw ch ss = inr verts ->
  exists k, length verts = (12 * k)%nat.
Proof.
  revert verts. induction ss as [| s ss IH]; intros verts Hv; simpl in Hv.
  - injection Hv as <-. now exists 0%nat.
  - destruct (rasterised now s); [| now apply IH].
    destruct (stroke_verts s cw ch (points s)) as [e | q] eqn:Hq;
      [discriminate |].
    destruct (all_verts now cw ch ss) as [e | r]; [discriminate |].
    injection Hv as <-.
    destruct (stroke_verts_length _ _ _ _ _ Hq) as [k1 Hk1].
    destruct (IH r eq_refl) as [k2 Hk2].
    exists (k1 + k2)%nat. rewrite length_app. lia.
Qed.

Lemma all_verts_whole_quads_witness :
  exists verts k,
    all_verts 0 800 600 [sample_stroke 0] = inr verts /\
    length verts = (12 * k)%nat.
Proof.
  destruct (all_verts_total 0 800 600 [sample_stroke 0]) as [verts Hv];
    [lia | lia |].
  destruct (all_verts_whole_quads _ _ _ _ _ Hv) as [k Hk].
  now exists verts, k.
Defined.








(** ** What a frame changes *)

Lemma decay_stroke_geometry (k : GLCanvas) (now : R) (s : Stroke) :
  points (decay_stroke k now s) = points s /\
  width (decay_stroke k now s) = width s /\
  color (decay_stroke k now s) = color s /\
  time_created (decay_stroke k now s) = time_created s.
Proof.
  unfold decay_stroke.
  destruct (is_visible s); simpl; [| now repeat split].
  destruct (Rlt_dec _ 0); simpl; [now repeat split |].
  destruct (Rlt_dec _ 0.001); now repeat split.
Qed.

Lemma paintEvent_returned_eq (gpu : rasteriser) (cw ch : Z) (c c' : GLCanvas) :
  paintEvent gpu cw ch c = Returned c' ->
  exists gd,
    let c2 := controller_update gd (rewind_check c) in
    c' = set_last_virtual_time
           (set_strokes c2 (map (decay_stroke c2 (virtual_time c))
                                (strokes (rewind_check c))))
           (virtual_time c).
Proof.
  unfold paintEvent.
  destruct (render_density_map gpu cw ch (rewind_check c)) as [e | d];
    [discriminate |].
  intros [= <-]. exists (global_density d).
  destruct (rewind_check_frame c) as [-> | [_ ->]]; reflexivity.
Qed.

(** X6: a completed frame rewrites only alpha, the retirement flags, the
    controller factor and the rewind reference: the strokes keep their
    number, order, points, width, colour and creation time, and both
    clocks, the pending points, the configuration and the drawing timer
    are untouched; the rewind reference becomes the current time. *)
Theorem paintEvent_frame (gpu : rasteriser) (cw ch : Z) (c c' : GLCanvas) :
  paintEvent gpu cw ch c = Returned c' ->
  Forall2 (fun s s' => points s' = points s /\ width s' = width s /\
                       color s' = color s /\
                       time_created s' = time_created s)
          (strokes c) (strokes c') /\
  virtual_time c' = virtual_time c /\
  max_virtual_time c' = max_virtual_time c /\
  current_points c' = current_points c /\
  last_virtual_time c' = virtual_time c /\
  timer_active c' = timer_active c /\
  (target_density c', hysteresis c', lambda_base c', lambda_k c',
   density_w c', density_h c')
  = (target_density c, hysteresis c, lambda_base c, lambda_k c,
     density_w c, density_h c).
Proof.
  intros Hpaint.
  destruct (paintEvent_returned_eq _ _ _ _ _ Hpaint) as [gd ->].
  assert (Hgeo : forall k now f ss,
             (forall s, points (f s) = points s /\ width (f s) = width s /\
                        color (f s) = color s /\
                        time_created (f s) = time_created s) ->
             Forall2 (fun s s' => points s' = points s /\ width s' = width s /\
                                  color s' = color s /\
                                  time_created s' = time_created s)
                     ss (map (fun s => decay_stroke k now (f s)) ss)).
  { intros k now f ss Hf. induction ss as [| s ss IH]; simpl; constructor;
      [| exact IH].
    destruct (decay_stroke_geometry k now (f s)) as (-> & -> & -> & ->).
    apply Hf. }
  destruct (rewind_check_frame c) as [-> | [_ ->]]; simpl.
  - split; [| now repeat split].
    refine (Hgeo _ _ (fun s => s) (strokes c) _). now intros s.
  - split; [| now repeat split].
    rewrite map_map.
    apply (Hgeo _ _ (set_is_visible true)). now intros s.
Qed.

Lemma paintEvent_frame_witness :
  exists c',
    paintEvent half_covered 800 600 canvas_one_stroke = Returned c' /\
    virtual_time c' = virtual_time canvas_one_stroke /\
    length (strokes c') = 1%nat.
Proof.
  destruct (paintEvent_total half_covered 800 600 canvas_one_stroke)
    as [c' Hpaint]; [lia | lia |].
  exists c'. split; [exact Hpaint |].
  destruct (paintEvent_frame _ _ _ _ _ Hpaint) as (Hgeo & Hvt & _).
  split; [exact Hvt |].
  apply Forall2_length in Hgeo. now rewrite <- Hgeo.
Defined.

(** ** What the event loop keeps *)

Lemma import_returned_eq (t : json_str) (c c' : GLCanvas) :
  import_strokes_json t c = Returned c' ->
  exists data vt times ss,
    t = Text data /\
    (v <- dict_get data "virtual_time" (JNum 0.0) ;; as_float v) = inr vt /\
    snapshot_times data = inr times /\
    snapshot_strokes data = inr ss /\
    c' = set_strokes
           (set_max_virtual_time (set_virtual_time c vt)
              (py_max vt (py_max_list times 0.0)))
           ss.
Proof.
  unfold import_strokes_json.
  destruct t as [| data]; simpl; [discriminate |].
  destruct (v <- dict_get data "virtual_time" (JNum 0.0) ;; as_float v)
    as [e | vt] eqn:Hvt; [discriminate |].
  destruct (snapshot_times data) as [e | times] eqn:Htimes; [discriminate |].
  destruct (snapshot_strokes data) as [e | ss] eqn:Hss; [discriminate |].
  intros [= <-]. now exists data, vt, times, ss.
Qed.

(** The constants of the controller, as a tuple. *)
Lemma step_constants (c : GLCanvas) (e : event) :
  (target_density (step c e), hysteresis (step c e),
   lambda_base (step c e), lambda_k (step c e))
  = (target_density c, hysteresis c, lambda_base c, lambda_k c).
Proof.
  destruct e; simpl; try reflexivity.
  - unfold mousePressEvent. now destruct lb.
  - unfold mouseMoveEvent. now destruct lb.
  - unfold mouseReleaseEvent. destruct (lb && _); [| reflexivity].
    now destruct (Rlt_dec _ _).
  - now destruct (timer_active c).
  - destruct (import_strokes_json s c) as [c' | e c'] eqn:Himp; simpl.
    + destruct (import_returned_eq s c c' Himp)
        as (data & vt & times & ss & _ & _ & _ & _ & ->).
      reflexivity.
    + now destruct (import_raised_frame s c c' e Himp) as [-> | [-> | ->]].
  - destruct (paintEvent gpu cw ch c) as [c' | e c'] eqn:Hpaint; simpl.
    + destruct (paintEvent_returned_eq _ _ _ _ _ Hpaint) as [gd ->].
      now destruct (rewind_check_frame c) as [-> | [_ ->]].
    + apply paintEvent_raised in Hpaint as ->.
      now destruct (rewind_check_frame c) as [-> | [_ ->]].
Qed.

Lemma reachable_constants (c : GLCanvas) :
  reachable c ->
  (target_density c, hysteresis c, lambda_base c, lambda_k c)
  = (0.05, 0.02, 0.1, 3.0).
Proof.
  intros (dw & dh & es & ->). unfold run.
  assert (Hinit : (target_density (GLCanvas_init dw dh),
                   hysteresis (GLCanvas_init dw dh),
                   lambda_base (GLCanvas_init dw dh),
                   lambda_k (GLCanvas_init dw dh))
                  = (0.05, 0.02, 0.1, 3.0)) by reflexivity.
  revert Hinit. generalize (GLCanvas_init dw dh).
  induction es as [| e es IH]; intros c Hc; simpl; [exact Hc |].
  apply IH. now rewrite step_constants.
Qed.

Lemma reachable_step (c : GLCanvas) (e : event) :
  reachable c -> reachable (step c e).
Proof.
  intros (dw & dh & es & ->). exists dw, dh, (es ++ [e]).
  unfold run. now rewrite fold_left_app.
Qed.

Lemma exp_nonpos_le_1 (x : R) : 0 <= x -> exp (- x) <= 1.
Proof.
  intros Hx. rewrite <- exp_0. apply exp_le_mono. lra.
Qed.

Lemma decay_stroke_visible_cases (k : GLCanvas) (now : R) (s : Stroke) :
  is_visible s = true ->
  let a := exp (- (lambda_base k * lambdas_factor k)
                * (now - time_created s)) in
  (now - time_created s < 0 /\
   decay_stroke k now s = set_base_alpha 0.0 s) \/
  (0 <= now - time_created s /\ a < 0.001 /\
   decay_stroke k now s = set_is_visible false (set_base_alpha 0.0 s)) \/
  (0 <= now - time_created s /\ 0.001 <= a /\
   decay_stroke k now s = set_base_alpha a s).
Proof.
  intros Hvis a. unfold decay_stroke. rewrite Hvis. simpl. fold a.
  destruct (Rlt_dec (now - time_created s) 0) as [Hneg | Hage];
    [left; now split |].
  right. destruct (Rlt_dec a 0.001) as [Hlow | Hhigh]; [left | right];
    repeat split; try lra; reflexivity.
Qed.

(** X7: after a completed frame on a canvas the program can reach, every
    stroke has alpha in [0, 1]; a retired stroke has alpha 0; a stroke
    still in play that already exists at the current time has alpha at
    least 0.001; a stroke created later than the current time has alpha 0
    and is not retired. *)
Theorem frame_alpha_range (gpu : rasteriser) (cw ch : Z) (c c' : GLCanvas) :
  reachable c ->
  paintEvent gpu cw ch c = Returned c' ->
  Forall (fun s =>
            0 <= base_alpha s <= 1 /\
            (is_visible s = false -> base_alpha s = 0) /\
            (is_visible s = true -> time_created s <= virtual_time c ->
             0.001 <= base_alpha s) /\
            (virtual_time c < time_created s ->
             base_alpha s = 0 /\ is_visible s = true))
         (strokes c').
Proof.
  intros Hreach Hpaint.
  pose proof (reachable_invariant c Hreach) as Hinv.
  pose proof (reachable_constants c Hreach) as [= _ _ Hbase _].
  destruct (paintEvent_returned _ _ _ _ _ Hpaint) as (d & _ & Hstrokes & _).
  rewrite Hstrokes. apply Forall_map, Forall_forall. intros s Hin.
  set (k := controller_update (global_density d) (rewind_check c)).
  assert (Hlam : 0 <= lambda_base k * lambdas_factor k).
  { assert (Hk : lambda_base k = 0.1).
    { unfold k. destruct (rewind_check_frame c) as [-> | [_ ->]]; exact Hbase. }
    pose proof (clamp_range
                  (1.0 + lambda_k (rewind_check c) *
                     (if Rlt_dec (Rabs (global_density d
                                        - target_density (rewind_check c)))
                                 (hysteresis (rewind_check c))
                      then 0.0
                      else global_density d - target_density (rewind_check c))))
      as Hclamp.
    rewrite <- controller_update_factor in Hclamp. fold k in Hclamp.
    rewrite Hk. nra. }
  clearbody k.
  destruct (is_visible s) eqn:Hvis.
  - destruct (decay_stroke_visible_cases k (virtual_time c) s Hvis)
      as [[Hneg ->] | [(Hage & Hlow & ->) | (Hage & Hhigh & ->)]]; simpl.
    + rewrite Hvis. repeat split; try lra; try congruence.
    + repeat split; try lra; try congruence.
    + pose proof (exp_nonpos_le_1
                    (lambda_base k * lambdas_factor k
                     * (virtual_time c - time_created s))) as Hle.
      rewrite Ropp_mult_distr_l in Hle.
      rewrite Hvis. repeat split; try lra; try congruence.
      apply Hle. nra.
  - destruct (rewind_check_not_back c s Hin Hvis) as [Hfwd Hin'].
    unfold retired_in_the_past in Hinv. rewrite Forall_forall in Hinv.
    destruct (Hinv s Hin' Hvis) as [Hpast Hzero].
    unfold decay_stroke. rewrite Hvis. simpl.
    repeat split; try lra; try congruence.
Qed.

Lemma frame_alpha_range_witness :
  exists c',
    paintEvent half_covered 800 600 (run retiring_session (GLCanvas_init 2 2))
    = Returned c' /\
    Forall (fun s => 0 <= base_alpha s <= 1) (strokes c').
Proof.
  destruct (paintEvent_total half_covered 800 600
              (run retiring_session (GLCanvas_init 2 2)))
    as [c' Hpaint]; [lia | lia |].
  exists c'. split; [exact Hpaint |].
  eapply Forall_impl;
    [| apply (frame_alpha_range _ _ _ _ _
                (ex_intro _ 2%nat (ex_intro _ 2%nat
                   (ex_intro _ retiring_session eq_refl))) Hpaint)].
  intros s [Hrange _]. exact Hrange.
Defined.

(** ** Playback *)

(** X8: [n >= 1] ticks of the playback timer put the clock at
    [min(max_virtual_time, virtual_time + 0.033 n)] and change nothing
    else: playback never passes the high-water mark, stays on it once
    there, and a clock that was beyond it is pulled back to it by the
    first tick. *)
Theorem advance_timeline_ticks (n : nat) (c : GLCanvas) :
  (1 <= n)%nat ->
  Nat.iter n advance_timeline c =
  set_virtual_time c
    (Rmin (max_virtual_time c) (virtual_time c + 0.033 * INR n)).
Proof.
  intros Hn. induction n as [| n IH]; [lia |].
  destruct n as [| n].
  - simpl. unfold advance_timeline. f_equal. unfold Rmin.
    replace (virtual_time c + 0.033 * 1) with (virtual_time c + 0.033) by lra.
    destruct (Rle_dec _ _); reflexivity.
  - rewrite Nat.iter_succ, IH by lia. clear IH.
    rewrite (S_INR (S n)).
    pose proof (pos_INR (S n)) as Hpos.
    set (x := INR (S n)) in *. clearbody x.
    unfold advance_timeline, set_virtual_time. simpl. f_equal.
    unfold Rmin.
    destruct (Rle_dec (max_virtual_time c) (virtual_time c + 0.033 * x));
      destruct (Rle_dec (max_virtual_time c) (_ + 0.033));
      destruct (Rle_dec (max_virtual_time c)
                        (virtual_time c + 0.033 * (x + 1)));
      lra.
Qed.

Lemma advance_timeline_ticks_witness :
  virtual_time
    (Nat.iter 3 advance_timeline
       (set_max_virtual_time (GLCanvas_init 128 96) 0.05))
  = Rmin 0.05 (0.0 + 0.033 * INR 3).
Proof.
  rewrite (advance_timeline_ticks 3
             (set_max_virtual_time (GLCanvas_init 128 96) 0.05)) by lia.
  reflexivity.
Defined.

(** ** More on snapshots *)

Lemma stroke_of_json_time (d : json) (s : Stroke) :
  stroke_of_json d = inr s ->
  (t <- subscript d "time_created" ;; as_float t) = inr (time_created s).
Proof.
  unfold stroke_of_json, bind.
  destruct (subscript d "points") as [e | ps]; [discriminate |].
  destruct (py_iter ps) as [e | items]; [discriminate |].
  destruct (mapM as_tuple3 items) as [e | pts]; [discriminate |].
  destruct (subscript d "width") as [e | w]; [discriminate |].
  destruct (as_float w) as [e | w']; [discriminate |].
  destruct (subscript d "color") as [e | col]; [discriminate |].
  destruct (as_tuple3 col) as [e | col']; [discriminate |].
  destruct (subscript d "time_created") as [e | t]; [discriminate |].
  destruct (as_float t) as [e | t']; [discriminate |].
  destruct (dict_get d "base_alpha" (JNum 1.0)) as [e | a]; [discriminate |].
  destruct (as_float a) as [e | a']; [discriminate |].
  now intros [= <-].
Qed.

Lemma mapM_times_of_strokes (items : list json) :
  forall (times : list R) (ss : list Stroke),
    mapM (fun s => t <- subscript s "time_created" ;; as_float t) items
    = inr times ->
    mapM stroke_of_json items = inr ss ->
    times = map time_created ss.
Proof.
  induction items as [| d items IH]; intros times ss Ht Hss;
    cbn [mapM] in Ht, Hss.
  - injection Ht as <-. injection Hss as <-. reflexivity.
  - destruct (stroke_of_json d) as [e | s] eqn:Hs; [discriminate |].
    rewrite (stroke_of_json_time d s Hs) in Ht.
    destruct (mapM stroke_of_json items) as [e | ss']; [discriminate |].
    match type of Ht with
    | context [mapM ?f items] =>
        destruct (mapM f items) as [e | times']; [discriminate |]
    end.
    cbn [bind ret] in Ht, Hss.
    injection Ht as <-. injection Hss as <-.
    simpl. f_equal. now apply IH.
Qed.

Lemma snapshot_times_of_strokes (data : json) (times : list R)
    (ss : list Stroke) :
  snapshot_times data = inr times ->
  snapshot_strokes data = inr ss ->
  times = map time_created ss.
Proof.
  unfold snapshot_times, snapshot_strokes.
  destruct (dict_get data "strokes" (JArr [])) as [e | v]; [discriminate |].
  cbn [bind].
  destruct (py_iter v) as [e | items]; [discriminate |].
  cbn [bind]. apply mapM_times_of_strokes.
Qed.

Lemma py_max_list_spec (xs : list R) (d : R) :
  let m := py_max_list xs d in
  Forall (fun x => x <= m) xs /\ (In m xs \/ (xs = [] /\ m = d)).
Proof.
  destruct xs as [| x xs]; simpl.
  - split; [constructor | right; now split].
  - destruct (fold_py_max_spec xs x) as [Hin Hall]. split; [exact Hall |].
    now left.
Qed.

(** X9: a successful import replaces the strokes and both clocks and
    nothing else (in particular neither the pending points nor the rewind
    reference), and what it puts there depends on the text alone, not on
    the canvas it is imported into. *)
Theorem import_replaces_three_fields (t : json_str) (c c' : GLCanvas) :
  import_strokes_json t c = Returned c' ->
  c' = set_strokes
         (set_max_virtual_time (set_virtual_time c (virtual_time c'))
            (max_virtual_time c'))
         (strokes c') /\
  forall c2 : GLCanvas,
    import_strokes_json t c2 =
    Returned
      (set_strokes
         (set_max_virtual_time (set_virtual_time c2 (virtual_time c'))
            (max_virtual_time c'))
         (strokes c')).
Proof.
  intros Himp.
  destruct (import_returned_eq t c c' Himp)
    as (data & vt & times & ss & -> & Hvt & Htimes & Hss & ->).
  split; [reflexivity |].
  intros c2. unfold import_strokes_json, json_loads, ret. cbv beta iota.
  rewrite Hvt, Htimes, Hss. reflexivity.
Qed.

Lemma import_replaces_three_fields_witness :
  exists c',
    import_strokes_json (export_strokes_json canvas_one_stroke)
                        (GLCanvas_init 128 96) = Returned c' /\
    current_points c' = current_points (GLCanvas_init 128 96) /\
    density_w c' = 128%nat.
Proof.
  pose proof (import_export canvas_one_stroke (GLCanvas_init 128 96)) as Himp.
  eexists. split; [exact Himp |].
  destruct (import_replaces_three_fields _ _ _ Himp) as [Heq _].
  split; reflexivity.
Defined.

Lemma import_returned_below_high_water (t : json_str) (c c' : GLCanvas) :
  import_strokes_json t c = Returned c' -> below_high_water c'.
Proof.
  intros Himp.
  destruct (import_returned_eq t c c' Himp)
    as (data & vt & times & ss & -> & Hvt & Htimes & Hss & ->).
  rewrite (snapshot_times_of_strokes data times ss Htimes Hss).
  unfold below_high_water. simpl.
  destruct (py_max_list_spec (map time_created ss) 0.0) as [Hall _].
  cbv zeta in Hall. rewrite Forall_map in Hall.
  eapply Forall_impl; [| exact Hall]. simpl. intros s Hs.
  unfold py_max. destruct (Rlt_dec vt _); lra.
Qed.

(** X10: after a successful import the high-water mark is at least the
    imported virtual time and every creation time, and it is one of them
    (or 0.0 when the snapshot has no strokes). *)
Theorem import_high_water_mark (t : json_str) (c c' : GLCanvas) :
  import_strokes_json t c = Returned c' ->
  virtual_time c' <= max_virtual_time c' /\
  below_high_water c' /\
  (max_virtual_time c' = virtual_time c' \/
   (exists s, In s (strokes c') /\ time_created s = max_virtual_time c') \/
   (strokes c' = [] /\ max_virtual_time c' = 0.0)).
Proof.
  intros Himp.
  destruct (import_returned_eq t c c' Himp)
    as (data & vt & times & ss & -> & Hvt & Htimes & Hss & ->).
  rewrite (snapshot_times_of_strokes data times ss Htimes Hss).
  unfold below_high_water. simpl.
  destruct (py_max_list_spec (map time_created ss) 0.0) as [Hall Hin].
  cbv zeta in Hall, Hin.
  set (m := py_max_list (map time_created ss) 0.0) in *.
  rewrite Forall_map in Hall.
  unfold py_max. destruct (Rlt_dec vt m) as [Hlt | Hge].
  - split; [lra |]. split; [exact Hall |]. right.
    destruct Hin as [Hin | [Hnil Hm]].
    + left. apply in_map_iff in Hin as (s & Hs & Hin). now exists s.
    + right. split; [| exact Hm].
      now destruct ss.
  - split; [lra |]. split; [| now left].
    eapply Forall_impl; [| exact Hall]. simpl. intros s Hs. lra.
Qed.

Lemma import_high_water_mark_witness :
  exists c',
    import_strokes_json (export_strokes_json canvas_one_stroke)
                        (GLCanvas_init 128 96) = Returned c' /\
    below_high_water c'.
Proof.
  pose proof (import_export canvas_one_stroke (GLCanvas_init 128 96)) as Himp.
  eexists. split; [exact Himp |].
  exact (proj1 (proj2 (import_high_water_mark _ _ _ Himp))).
Defined.

(** X11: exporting what was just imported from an export gives the same
    document again: the retirement flags, the only thing an import does
    not restore, are not part of a snapshot. *)
Theorem reexport_is_stable (c c0 : GLCanvas) :
  export_strokes_json
    (state_of (import_strokes_json (export_strokes_json c) c0))
  = export_strokes_json c.
Proof.
  rewrite import_export. unfold export_strokes_json. simpl.
  rewrite map_map. reflexivity.
Qed.










(** ** The high-water mark *)

Lemma below_high_water_ext (c c' : GLCanvas) :
  map time_created (strokes c') = map time_created (strokes c) ->
  max_virtual_time c' = max_virtual_time c ->
  below_high_water c -> below_high_water c'.
Proof.
  unfold below_high_water. intros Ht -> Hc.
  rewrite <- Forall_map with (f := time_created) (P := fun t => t <= _) in *.
  now rewrite Ht.
Qed.

Lemma rewind_check_times (c : GLCanvas) :
  map time_created (strokes (rewind_check c)) = map time_created (strokes c) /\
  max_virtual_time (rewind_check c) = max_virtual_time c.
Proof.
  destruct (rewind_check_frame c) as [-> | [_ ->]]; [now split |].
  simpl. now rewrite map_map.
Qed.

Lemma paintEvent_times (gpu : rasteriser) (cw ch : Z) (c : GLCanvas) :
  let c' := state_of (paintEvent gpu cw ch c) in
  map time_created (strokes c') = map time_created (strokes c) /\
  max_virtual_time c' = max_virtual_time c.
Proof.
  destruct (rewind_check_times c) as [Ht Hm].
  destruct (paintEvent gpu cw ch c) as [c' | e c'] eqn:Hpaint; simpl.
  - destruct (paintEvent_returned_eq _ _ _ _ _ Hpaint) as [gd ->]. simpl.
    rewrite map_map. split.
    + rewrite <- Ht. apply map_ext. intros s. apply decay_stroke_time.
    + destruct (rewind_check_frame c) as [-> | [_ ->]]; reflexivity.
  - apply paintEvent_raised in Hpaint as ->. now split.
Qed.

Lemma mouseReleaseEvent_high_water (lb : bool) (c : GLCanvas) :
  below_high_water c -> below_high_water (mouseReleaseEvent lb c).
Proof.
  intros Hc. unfold mouseReleaseEvent.
  destruct (lb && _); [| exact Hc].
  unfold below_high_water in *. simpl.
  destruct (Rlt_dec (max_virtual_time c) (virtual_time c)) as [Hlt | Hge];
    simpl; apply Forall_app; split.
  - eapply Forall_impl; [| exact Hc]. simpl. intros s Hs. lra.
  - constructor; [simpl; lra | constructor].
  - exact Hc.
  - constructor; [simpl; lra | constructor].
Qed.

Lemma step_high_water (c : GLCanvas) (e : event) :
  below_high_water c ->
  match e with
  | Import s => exists c', import_strokes_json s c = Returned c'
  | _ => True
  end ->
  below_high_water (step c e).
Proof.
  intros Hc Himp. destruct e; simpl.
  - unfold mousePressEvent. destruct lb; exact Hc.
  - unfold mouseMoveEvent. destruct lb; exact Hc.
  - now apply mouseReleaseEvent_high_water.
  - destruct (timer_active c); exact Hc.
  - exact Hc.
  - exact Hc.
  - exact Hc.
  - exact Hc.
  - constructor.
  - destruct Himp as [c' Hret]. rewrite Hret. simpl.
    exact (import_returned_below_high_water _ _ _ Hret).
  - destruct (paintEvent_times gpu cw ch c) as [Ht Hm].
    now apply (below_high_water_ext c).
Qed.

(** X13: in a session in which no import fails, no stroke is ever
    created later than the high-water mark; so jumping to "now" shows
    every stroke at a non-negative age.  (A failed import can overwrite
    the mark and is excluded.) *)
Theorem high_water_invariant (dw dh : nat) (es : list event) :
  imports_succeed es (GLCanvas_init dw dh) ->
  let c := run es (GLCanvas_init dw dh) in
  below_high_water c /\
  Forall (fun s => 0 <= virtual_time (go_to_now c) - time_created s)
         (strokes (go_to_now c)).
Proof.
  intros Hok c.
  assert (Hc : below_high_water c).
  { subst c. unfold run.
    assert (Hinit : below_high_water (GLCanvas_init dw dh)) by constructor.
    revert Hok Hinit. generalize (GLCanvas_init dw dh).
    induction es as [| e es IH]; intros c0 Hok Hinit; simpl; [exact Hinit |].
    destruct Hok as [He Hrest].
    apply IH; [exact Hrest |]. now apply step_high_water. }
  split; [exact Hc |].
  unfold below_high_water in Hc. simpl.
  eapply Forall_impl; [| exact Hc]. simpl. intros s Hs. lra.
Qed.

Lemma high_water_invariant_witness :
  below_high_water (run retiring_session (GLCanvas_init 2 2)).
Proof.
  apply (high_water_invariant 2 2 retiring_session).
  simpl. tauto.
Defined.

(** A failed import is excluded for a reason: here it lowers the mark
    below the creation time of the stroke on the canvas. *)
Example failed_import_lowers_high_water :
  let c := set_max_virtual_time
             (set_strokes (GLCanvas_init 128 96) [sample_stroke 3]) 3 in
  let doc := Text (JObj [("strokes",
                          JArr [JObj [("time_created", JNum 1)]])]%string) in
  below_high_water c /\
  exists c', import_strokes_json doc c = Raised KeyError c' /\
             ~ below_high_water c'.
Proof.
  split.
  - constructor; [simpl; lra | constructor].
  - eexists. split; [reflexivity |].
    unfold below_high_water. simpl. intros Hbad.
    inversion Hbad as [| ? ? Hle _]; subst. simpl in Hle.
    unfold py_max in Hle. destruct (Rlt_dec 0.0 1); lra.
Qed.

(** ** More on world lines *)

Lemma pending_segments_not_nil (ts : list R) :
  forall i prev indices, pending_segments ts i prev indices <> [].
Proof.
  induction ts as [| t ts IH]; intros i prev indices; simpl; [discriminate |].
  destruct (Rlt_dec t prev); [discriminate | apply IH].
Qed.

Lemma calc_segments_loop_snd (lh : Z) (ts : list R) :
  forall (i : nat) (prev : R) (indices : list nat) (y : Z)
         (segs : list (list nat)) (ys : list Z),
    snd (calc_segments_loop lh ts i prev indices y segs ys)
    = ys ++ map (fun k => (y + Z.of_nat k * (lh + 2))%Z)
                (seq 0 (length (pending_segments ts i prev indices))).
Proof.
  induction ts as [| t ts IH]; intros i prev indices y segs ys; simpl.
  - now rewrite Z.add_0_r.
  - destruct (Rlt_dec t prev); rewrite IH; [| reflexivity].
    rewrite <- app_assoc. simpl. f_equal. f_equal; [lia |].
    rewrite <- seq_shift, map_map. apply map_ext. intros k.
    rewrite Nat2Z.inj_succ. ring.
Qed.

Lemma segment_ys_set_stroke_times (times : list R) :
  segment_ys (set_stroke_times times)
  = map (fun k => (14 * Z.of_nat k)%Z)
        (seq 0 (length (segment_indices (set_stroke_times times)))).
Proof.
  rewrite segment_indices_set_stroke_times.
  unfold set_stroke_times, calc_segments.
  cbn [stroke_times line_height].
  destruct times as [| t0 ts]; [reflexivity |].
  pose proof (calc_segments_loop_snd 12 ts 1 t0 [0%nat] 0 [] []) as Hsnd.
  destruct (calc_segments_loop 12 ts 1 t0 [0%nat] 0 [] []) as [segs ys].
  cbn [segment_ys snd app] in *. rewrite Hsnd.
  apply map_ext. intros k. lia.
Qed.

(** X14: the k-th world line is laid out on row [14 k] of the timeline
    ([line_height + 2] apart, from 0); there is exactly one row per world
    line. *)
Theorem segment_rows (times : list R) :
  let w := set_stroke_times times in
  segment_ys w
  = map (fun k => (14 * Z.of_nat k)%Z)
        (seq 0 (length (segment_indices w))) /\
  length (segment_ys w) = length (segment_indices w).
Proof.
  intros w. subst w. split.
  - apply segment_ys_set_stroke_times.
  - rewrite segment_ys_set_stroke_times at 1.
    now rewrite length_map, length_seq.
Qed.

Lemma last_cons {A : Type} (a d : A) (l : list A) :
  last (a :: l) d = last l a.
Proof.
  revert a d. induction l as [| b l IH]; intros a d; [reflexivity |].
  change (last (a :: b :: l) d) with (last (b :: l) d).
  now rewrite (IH b d), (IH b a).
Qed.

Lemma pending_segments_app (ts : list R) (t : R) :
  forall (i : nat) (prev : R) (indices : list nat),
    pending_segments (ts ++ [t]) i prev indices =
    let segs := pending_segments ts i prev indices in
    if Rlt_dec t (last ts prev)
    then segs ++ [[(i + length ts)%nat]]
    else removelast segs ++ [last segs [] ++ [(i + length ts)%nat]].
Proof.
  induction ts as [| t1 ts IH]; intros i prev indices.
  - simpl. rewrite Nat.add_0_r. destruct (Rlt_dec t prev); reflexivity.
  - cbn [app pending_segments length]. rewrite last_cons.
    replace (i + S (length ts))%nat with (S i + length ts)%nat by lia.
    destruct (Rlt_dec t1 prev); rewrite IH; cbv zeta.
    + pose proof (pending_segments_not_nil ts (S i) t1 [i]) as Hne.
      destruct (Rlt_dec t (last ts t1)); [reflexivity |].
      destruct (pending_segments ts (S i) t1 [i]) as [| s segs];
        [congruence | reflexivity].
    + reflexivity.
Qed.

(** X15: committing a stroke at a virtual time strictly below the
    creation time of the last stroke opens a new world line holding just
    that stroke; otherwise the stroke joins the last world line.  The
    earlier world lines are never reshuffled. *)
Theorem commit_extends_world_lines (c : GLCanvas) :
  (2 <= length (current_points c))%nat ->
  strokes c <> [] ->
  let n := length (strokes c) in
  let segs := segment_indices (set_stroke_times (get_stroke_times c)) in
  let segs' :=
    segment_indices
      (set_stroke_times (get_stroke_times (mouseReleaseEvent true c))) in
  let last_time := last (get_stroke_times c) 0 in
  (virtual_time c < last_time -> segs' = segs ++ [[n]]) /\
  (last_time <= virtual_time c ->
   segs' = removelast segs ++ [last segs [] ++ [n]]).
Proof.
  intros Hpts Hne n segs segs' last_time.
  assert (Htimes : get_stroke_times (mouseReleaseEvent true c)
                   = get_stroke_times c ++ [virtual_time c]).
  { unfold mouseReleaseEvent, get_stroke_times.
    destruct (Nat.leb_spec 2 (length (current_points c))); [| lia].
    simpl. destruct (Rlt_dec _ _); simpl; now rewrite map_app. }
  subst segs segs' last_time. rewrite Htimes.
  rewrite !segment_indices_set_stroke_times.
  unfold get_stroke_times in *.
  destruct (strokes c) as [| s0 ss] eqn:Hss; [congruence |].
  cbn [map app]. rewrite pending_segments_app, last_cons. cbv zeta.
  subst n. cbn [length]. rewrite length_map.
  destruct (Rlt_dec _ _) as [Hlt | Hge]; split; intros Hcase;
    try reflexivity; lra.
Qed.

Lemma commit_extends_world_lines_witness :
  let c := set_current_points canvas_one_stroke [(0, 0, 1.0); (1, 1, 1.0)] in
  segment_indices
    (set_stroke_times (get_stroke_times (mouseReleaseEvent true c)))
  = removelast (segment_indices (set_stroke_times (get_stroke_times c)))
    ++ [last (segment_indices (set_stroke_times (get_stroke_times c))) []
        ++ [1%nat]].
Proof.
  intros c.
  apply (commit_extends_world_lines c); [simpl; lia | discriminate |].
  simpl. lra.
Defined.

(** ** Hit testing on the timeline *)

(** Row [i] of the timeline is hit by [y]. *)
Lemma row_hit (y : R) (i : nat) :
  Rabs (y - IZR (14 * Z.of_nat i + 12 / 2)) < IZR 12
  <-> 14 * INR i - 6 < y < 14 * INR i + 18.
Proof.
  change (12 / 2)%Z with 6%Z.
  rewrite plus_IZR, mult_IZR, <- INR_IZR_INZ.
  unfold Rabs. destruct (Rcase_abs _); split; intros; lra.
Qed.

Lemma highlight_scan_rows (y : R) (m : nat) :
  forall j : nat,
    let rows := map (fun k => (14 * Z.of_nat k)%Z) (seq j m) in
    (forall k, (j <= k < j + m)%nat ->
               (forall i, (j <= i < k)%nat ->
                          ~ (14 * INR i - 6 < y < 14 * INR i + 18)) ->
               14 * INR k - 6 < y < 14 * INR k + 18 ->
               highlight_scan 12 y j rows = Some k) /\
    ((forall i, (j <= i < j + m)%nat ->
                ~ (14 * INR i - 6 < y < 14 * INR i + 18)) ->
     highlight_scan 12 y j rows = None).
Proof.
  induction m as [| m IH]; intros j rows; subst rows.
  - split; [intros k Hk; lia | reflexivity].
  - cbn [seq map highlight_scan].
    destruct (IH (S j)) as [IHhit IHmiss]. cbv zeta in IHhit, IHmiss.
    destruct (Rlt_dec _ _) as [Hhit | Hmiss].
    + apply row_hit in Hhit. split.
      * intros k Hk Hbefore Hk_hit.
        destruct (Nat.eq_dec k j) as [-> | Hne]; [reflexivity |].
        exfalso. apply (Hbefore j); [lia | exact Hhit].
      * intros Hnone. exfalso. apply (Hnone j); [lia | exact Hhit].
    + rewrite row_hit in Hmiss. split.
      * intros k Hk Hbefore Hk_hit.
        destruct (Nat.eq_dec k j) as [-> | Hne]; [contradiction |].
        apply IHhit; [lia | | exact Hk_hit].
        intros i Hi. apply Hbefore. lia.
      * intros Hnone. apply IHmiss. intros i Hi. apply Hnone. lia.
Qed.

(** X16: hit testing on the rows laid out by [calc_segments] never
    indexes out of range, and the bands it uses overlap: world line 0 is
    chosen for [-6 < y < 18], world line [k >= 1] only for
    [14 k + 4 <= y < 14 k + 18] (the first four units of its own row still
    select the world line above), and nothing is chosen elsewhere. *)
Theorem update_highlight_by_y_bands (times : list R) (y : R) :
  let w := set_stroke_times times in
  let n := length (segment_indices w) in
  (forall k indices,
      nth_error (segment_indices w) k = Some indices ->
      (k = 0%nat /\ -6 < y < 18) \/
      ((1 <= k)%nat /\ 14 * INR k + 4 <= y < 14 * INR k + 18) ->
      update_highlight_by_y w y = Some (Some k, indices)) /\
  (y <= -6 \/ 14 * INR n + 4 <= y \/ n = 0%nat ->
   update_highlight_by_y w y = Some (None, [])).
Proof.
  intros w n. unfold update_highlight_by_y.
  assert (Hys : segment_ys w
                = map (fun k => (14 * Z.of_nat k)%Z) (seq 0 n))
    by apply segment_ys_set_stroke_times.
  assert (Hlh : line_height w = 12%Z).
  { unfold w, set_stroke_times, calc_segments.
    now destruct (match stroke_times _ with [] => _ | _ :: _ => _ end). }
  rewrite Hys, Hlh.
  destruct (highlight_scan_rows y n 0) as [Hhit Hmiss].
  cbv zeta in Hhit, Hmiss. split.
  - intros k indices Hk Hband.
    assert (Hkn : (k < n)%nat).
    { apply nth_error_Some. fold w in Hk. congruence. }
    rewrite (Hhit k); [now rewrite Hk | lia | |].
    + intros i Hi Hrow.
      destruct Hband as [[-> _] | [Hk1 Hy]]; [lia |].
      assert (INR i + 1 <= INR k).
      { rewrite <- S_INR. apply le_INR. lia. }
      lra.
    + destruct Hband as [[-> Hy] | [Hk1 Hy]]; [simpl; lra |].
      lra.
  - intros Hout. rewrite Hmiss; [reflexivity |].
    intros i Hi Hrow.
    pose proof (pos_INR i) as Hpos.
    destruct Hout as [Hlow | [Hhigh | Hzero]]; [lra | | lia].
    assert (INR i + 1 <= INR n).
    { rewrite <- S_INR. apply le_INR. lia. }
    lra.
Qed.

Lemma update_highlight_by_y_bands_witness :
  update_highlight_by_y (set_stroke_times [1; 2; 3; 1; 2]) 15
  = Some (Some 0%nat, [0; 1; 2]%nat) /\
  update_highlight_by_y (set_stroke_times [1; 2; 3; 1; 2]) 18
  = Some (Some 1%nat, [3; 4]%nat).
Proof.
  assert (Hsegs : segment_indices (set_stroke_times [1; 2; 3; 1; 2])
                  = [[0; 1; 2]; [3; 4]]%nat).
  { rewrite segment_indices_set_stroke_times. simpl.
    repeat (case_Rlt; try lra; simpl). reflexivity. }
  split.
  - apply (proj1 (update_highlight_by_y_bands [1; 2; 3; 1; 2] 15)).
    + now rewrite Hsegs.
    + left. split; [reflexivity | lra].
  - apply (proj1 (update_highlight_by_y_bands [1; 2; 3; 1; 2] 18)).
    + now rewrite Hsegs.
    + right. split; [lia | simpl; lra].
Defined.

(** ** Drawing a stroke *)

Lemma drag_run (es : list event) :
  forall c : GLCanvas,
    Forall drag_event es ->
    timer_active c = true ->
    let c' := run es c in
    strokes c' = strokes c /\
    current_points c' = current_points c ++ drag_samples es /\
    virtual_time c' = virtual_time c + 0.033 * INR (drag_ticks es) /\
    max_virtual_time c' = max_virtual_time c /\
    timer_active c' = true.
Proof.
  induction es as [| e es IH]; intros c Hdrag Htimer; cbv zeta.
  - simpl. rewrite app_nil_r. repeat split; auto. lra.
  - inversion Hdrag as [| ? ? He Hes]; subst.
    change (run (e :: es) c) with (run es (step c e)).
    destruct e as [| [|] x y | | | | | | | | |]; simpl in He; try contradiction.
    + destruct (IH (step c (MouseMove true x y)) Hes Htimer)
        as (Hs & Hp & Hv & Hm & Ht).
      rewrite Hs, Hp, Hv, Hm, Ht. simpl.
      rewrite <- app_assoc. repeat split; auto.
    + assert (Hstep : step c DrawTick = advance_virtual_time c)
        by (simpl; now rewrite Htimer).
      rewrite Hstep.
      destruct (IH (advance_virtual_time c) Hes Htimer)
        as (Hs & Hp & Hv & Hm & Ht).
      rewrite Hs, Hp, Hv, Hm, Ht.
      cbn [drag_samples drag_ticks]. rewrite S_INR. simpl.
      repeat split; auto. lra.
Qed.

Lemma mouseReleaseEvent_commit (c : GLCanvas) :
  (2 <= length (current_points c))%nat ->
  let c' := mouseReleaseEvent true c in
  strokes c' =
    strokes c ++ [mkStroke (current_points c) 6.0 (0, 0, 0) (virtual_time c)
                           1.0 true] /\
  current_points c' = [] /\
  virtual_time c' = virtual_time c /\
  max_virtual_time c' = Rmax (max_virtual_time c) (virtual_time c) /\
  timer_active c' = false.
Proof.
  intros Hmany c'. subst c'. unfold mouseReleaseEvent.
  destruct (Nat.leb_spec 2 (length (current_points c))); [| lia].
  simpl. unfold Rmax.
  destruct (Rlt_dec _ _), (Rle_dec _ _); simpl; repeat split; lra.
Qed.

(** X17: pointer down, then any mix of moves and timer ticks with at
    least one move, then pointer up, commits exactly one stroke: its
    points are the samples in order (pressure 1.0), and its creation time
    is the time of the press plus 0.033 per tick.  The clock is left
    there, the pending points are emptied and the timer is stopped. *)
Theorem drag_commits_stroke (c : GLCanvas) (x0 y0 : R) (es : list event) :
  Forall drag_event es ->
  drag_samples es <> [] ->
  let c' := run (MousePress true x0 y0 :: es ++ [MouseRelease true]) c in
  let t := virtual_time c + 0.033 * INR (drag_ticks es) in
  strokes c' =
    strokes c ++ [mkStroke ((x0, y0, 1.0) :: drag_samples es) 6.0 (0, 0, 0)
                           t 1.0 true] /\
  current_points c' = [] /\
  virtual_time c' = t /\
  max_virtual_time c' = Rmax (max_virtual_time c) t /\
  timer_active c' = false.
Proof.
  intros Hdrag Hmoved c' t. subst c'.
  change (run (MousePress true x0 y0 :: es ++ [MouseRelease true]) c)
    with (run (es ++ [MouseRelease true]) (mousePressEvent true x0 y0 c)).
  unfold run. rewrite fold_left_app. fold (run es (mousePressEvent true x0 y0 c)).
  destruct (drag_run es (mousePressEvent true x0 y0 c) Hdrag eq_refl)
    as (Hs & Hp & Hv & Hm & _).
  set (c1 := run es (mousePressEvent true x0 y0 c)) in *.
  cbn [fold_left step].
  assert (Hlen : (2 <= length (current_points c1))%nat).
  { rewrite Hp. simpl. destruct (drag_samples es); [congruence | simpl; lia]. }
  destruct (mouseReleaseEvent_commit c1 Hlen) as (Hs' & Hp' & Hv' & Hm' & Ht').
  simpl in Hs, Hp, Hv, Hm. fold t in Hv.
  rewrite Hs', Hp', Hv', Hm', Ht', Hs, Hp, Hv, Hm.
  repeat split; reflexivity.
Qed.

Lemma drag_commits_stroke_witness :
  length
    (strokes (run (MousePress true 0 0
                   :: [MouseMove true 1 1; DrawTick; MouseMove true 2 2]
                      ++ [MouseRelease true])
                  (GLCanvas_init 128 96))) = 1%nat.
Proof.
  destruct (drag_commits_stroke (GLCanvas_init 128 96) 0 0
              [MouseMove true 1 1; DrawTick; MouseMove true 2 2])
    as [Hs _].
  - repeat constructor.
  - discriminate.
  - rewrite Hs. reflexivity.
Defined.

(** ** The drawing pass *)

Lemma quad_cmds_snoc (pts : list point) (ax ay ap bx by_ bp : R) :
  quad_cmds (pts ++ [(ax, ay, ap); (bx, by_, bp)])
  = quad_cmds (pts ++ [(ax, ay, ap)])
    ++ [QuadTo ax ay ((ax + bx) / 2) ((ay + by_) / 2)].
Proof.
  induction pts as [| p pts IH]; [reflexivity |].
  destruct p as [[px py] pp].
  destruct pts as [| q pts].
  - reflexivity.
  - destruct q as [[qx qy] qp].
    cbn [app quad_cmds] in IH |- *. now rewrite IH.
Qed.

Lemma quad_cmds_cons2 (p q : point) (pts : list point) :
  quad_cmds (p :: q :: pts)
  = QuadTo (fst (fst p)) (snd (fst p))
           ((fst (fst p) + fst (fst q)) / 2) ((snd (fst p) + snd (fst q)) / 2)
    :: quad_cmds (q :: pts).
Proof. destruct p as [[px py] pp], q as [[qx qy] qp]. reflexivity. Qed.

Lemma quad_cmds_length (pts : list point) :
  length (quad_cmds pts) = (length pts - 1)%nat.
Proof.
  induction pts as [| p pts IH]; [reflexivity |].
  destruct pts as [| q pts]; [reflexivity |].
  rewrite quad_cmds_cons2. cbn [length] in IH |- *. rewrite IH. lia.
Qed.

(** X18: the painted path of a stroke with [n >= 2] points has one
    [moveTo] and [n - 2] curves; for two points it is a bare [moveTo]
    (nothing to paint), and for more it ends at the midpoint of the last
    two samples, never at the last sample itself.  An empty point list
    fails on [pts[0]]. *)
Theorem stroke_path_shape :
  stroke_path [] = None /\
  (forall x0 y0 p0 x1 y1 p1,
      stroke_path [(x0, y0, p0); (x1, y1, p1)] = Some [MoveTo x0 y0]) /\
  (forall x0 y0 p0 pts ax ay ap bx by_ bp,
      exists curves,
        stroke_path ((x0, y0, p0) :: pts ++ [(ax, ay, ap); (bx, by_, bp)])
        = Some (MoveTo x0 y0 :: curves
                ++ [QuadTo ax ay ((ax + bx) / 2) ((ay + by_) / 2)]) /\
        length curves = length pts) /\
  (forall p pts path,
      stroke_path (p :: pts) = Some path ->
      length path = Nat.max 1 (length pts)).
Proof.
  split; [reflexivity |]. split; [reflexivity |]. split.
  - intros x0 y0 p0 pts ax ay ap bx by_ bp.
    exists (quad_cmds (pts ++ [(ax, ay, ap)])). split.
    + simpl. now rewrite quad_cmds_snoc.
    + rewrite quad_cmds_length, length_app. simpl. lia.
  - intros [[x0 y0] p0] pts path [= <-].
    cbn [length]. rewrite quad_cmds_length. lia.
Qed.

Lemma py_int_channel (a : R) :
  0.01 <= a -> (2 <= py_int (255 * np_clip 0.0 1.0 a) <= 255)%Z.
Proof.
  intros Ha.
  assert (Hclip : 0.01 <= np_clip 0.0 1.0 a <= 1).
  { unfold np_clip, Rmin, Rmax.
    destruct (Rle_dec a 0.0); destruct (Rle_dec _ 1.0); lra. }
  set (x := 255 * np_clip 0.0 1.0 a).
  assert (Hx : 2.55 <= x <= 255) by (unfold x; lra).
  unfold py_int. destruct (Rle_dec 0 x) as [_ | Hneg]; [| lra].
  destruct (base_Int_part x) as [Hlo Hhi]. split.
  - assert (Hlt : (1 < Int_part x)%Z) by (apply lt_IZR; lra). lia.
  - apply le_IZR. lra.
Qed.

(** A pen colour the stroke loop can set. *)
Lemma draw_strokes_pens (highlight : list nat) (ss : list Stroke) :
  forall (idx : nat) (pen : pen_colour) (calls : list draw_call)
         (pen_out : pen_colour),
    draw_strokes highlight idx pen ss = Some (calls, pen_out) ->
    Forall (fun call =>
              (fst (call_colour call) = (0, 0, 0)%Z \/
               fst (call_colour call) = (0, 180, 255)%Z) /\
              (2 <= snd (call_colour call) <= 255)%Z) calls /\
    pen_out = last (map call_colour calls) pen /\
    (length calls <= length ss)%nat.
Proof.
  induction ss as [| s ss IH]; intros idx pen calls pen_out Hdraw;
    cbn [draw_strokes] in Hdraw.
  - injection Hdraw as <- <-. repeat split; [constructor | simpl; lia].
  - destruct (Rlt_dec (base_alpha s) 0.01) as [Hfaint | Hseen].
    + destruct (IH _ _ _ _ Hdraw) as (Hall & Hpen & Hlen).
      repeat split; [exact Hall | exact Hpen | simpl; lia].
    + destruct (stroke_path (points s)) as [path |]; [| discriminate].
      destruct (draw_strokes highlight (S idx) _ ss) as [[calls' pen'] |] eqn:Hrest;
        [| discriminate].
      injection Hdraw as <- <-.
      destruct (IH _ _ _ _ Hrest) as (Hall & Hpen & Hlen).
      repeat split.
      * constructor; [| exact Hall]. simpl. split.
        -- destruct (existsb _ _); auto.
        -- apply py_int_channel. lra.
      * rewrite Hpen. cbn [map]. now rewrite last_cons.
      * simpl. lia.
Qed.

(** X19: every committed stroke that is painted gets an alpha channel
    between 2 and 255 and the black or the highlight colour; the stroke
    in progress is painted last, 6.0 wide, with whatever colour and alpha
    the pen was left with by the last painted stroke (opaque black if
    none was painted). *)
Theorem draw_canvas_pens (highlight : list nat) (c : GLCanvas)
    (calls : list draw_call) :
  draw_canvas highlight c = Some calls ->
  exists committed,
    Forall (fun call =>
              (fst (call_colour call) = (0, 0, 0)%Z \/
               fst (call_colour call) = (0, 180, 255)%Z) /\
              (2 <= snd (call_colour call) <= 255)%Z) committed /\
    (length committed <= length (strokes c))%nat /\
    ((current_points c = [] /\ calls = committed) \/
     (exists path,
         stroke_path (current_points c) = Some path /\
         calls = committed
                 ++ [mkDrawCall path 6.0
                       (last (map call_colour committed)
                             (0, 0, 0, 255)%Z)])).
Proof.
  unfold draw_canvas. intros Hdraw.
  destruct (draw_strokes highlight 0 _ (strokes c)) as [[committed pen] |]
    eqn:Hloop; [| discriminate].
  destruct (draw_strokes_pens _ _ _ _ _ _ Hloop) as (Hall & Hpen & Hlen).
  exists committed. split; [exact Hall |]. split; [exact Hlen |].
  destruct (current_points c) as [| p ps] eqn:Hcur.
  - injection Hdraw as <-. now left.
  - right. destruct (stroke_path (p :: ps)) as [path |]; [| discriminate].
    injection Hdraw as <-. exists path. now rewrite Hpen.
Qed.

Lemma draw_canvas_pens_witness :
  exists calls committed,
    draw_canvas [] canvas_mid_drag = Some calls /\
    (exists path,
        calls = committed
                ++ [mkDrawCall path 6.0
                      (last (map call_colour committed) (0, 0, 0, 255)%Z)]).
Proof.
  assert (Hdraw : draw_canvas [] canvas_mid_drag
                  = Some [mkDrawCall [MoveTo 0 0] 6.0 (0, 0, 0, 255)%Z])
    by reflexivity.
  destruct (draw_canvas_pens _ _ _ Hdraw)
    as (committed & _ & _ & [[Hnil _] | (path & _ & Hcalls)]);
    [discriminate |].
  exists [mkDrawCall [MoveTo 0 0] 6.0 (0, 0, 0, 255)%Z], committed.
  split; [exact Hdraw |]. now exists path.
Defined.

Lemma draw_strokes_total (highlight : list nat) (ss : list Stroke) :
  Forall (fun s => points s <> []) ss ->
  forall idx pen, exists r, draw_strokes highlight idx pen ss = Some r.
Proof.
  induction 1 as [| s ss Hs _ IH]; intros idx pen; cbn [draw_strokes].
  - now eexists.
  - destruct (Rlt_dec _ _); [apply IH |].
    destruct (points s) as [| [[x0 y0] p0] rest]; [congruence |].
    cbn [stroke_path].
    destruct (IH (S idx)
                (if existsb (Nat.eqb idx) highlight
                 then (0, 180, 255)%Z else (0, 0, 0)%Z,
                 py_int (255 * np_clip 0.0 1.0 (base_alpha s))))
      as [[calls pen_out] ->].
    now eexists.
Qed.

Lemma paintEvent_points (gpu : rasteriser) (cw ch : Z) (c : GLCanvas) :
  map points (strokes (state_of (paintEvent gpu cw ch c)))
  = map points (strokes c).
Proof.
  assert (Hrewind : map points (strokes (rewind_check c))
                    = map points (strokes c)).
  { destruct (rewind_check_frame c) as [-> | [_ ->]]; [reflexivity |].
    simpl. now rewrite map_map. }
  destruct (paintEvent gpu cw ch c) as [c' | e c'] eqn:Hpaint; simpl.
  - destruct (paintEvent_returned_eq _ _ _ _ _ Hpaint) as [gd ->]. simpl.
    rewrite map_map, <- Hrewind. apply map_ext. intros s.
    apply decay_stroke_time.
  - now apply paintEvent_raised in Hpaint as ->.
Qed.

Lemma step_two_points (c : GLCanvas) (e : event) :
  is_import e = false ->
  Forall (fun pts : list point => (2 <= length pts)%nat)
         (map points (strokes c)) ->
  Forall (fun pts : list point => (2 <= length pts)%nat)
         (map points (strokes (step c e))).
Proof.
  intros Hno Hc. destruct e; simpl in *; try discriminate; try exact Hc.
  - unfold mousePressEvent. destruct lb; exact Hc.
  - unfold mouseMoveEvent. destruct lb; exact Hc.
  - unfold mouseReleaseEvent.
    destruct lb; [| exact Hc]. cbn [andb].
    destruct (Nat.leb_spec 2 (length (current_points c))); [| exact Hc].
    simpl. destruct (Rlt_dec _ _); simpl; rewrite map_app;
      apply Forall_app; split; trivial; now constructor.
  - destruct (timer_active c); exact Hc.
  - constructor.
  - now rewrite paintEvent_points.
Qed.

(** X20: in a session without imports every stroke on the canvas has at
    least two points, so the drawing pass never fails on [pts[0]]. *)
Theorem draw_never_fails_without_import (dw dh : nat) (es : list event) :
  forallb (fun e => negb (is_import e)) es = true ->
  let c := run es (GLCanvas_init dw dh) in
  Forall (fun s => (2 <= length (points s))%nat) (strokes c) /\
  forall highlight, exists calls, draw_canvas highlight c = Some calls.
Proof.
  intros Hno c.
  assert (Hc : Forall (fun pts : list point => (2 <= length pts)%nat)
                      (map points (strokes c))).
  { subst c. unfold run.
    assert (Hinit : Forall (fun pts : list point => (2 <= length pts)%nat)
                           (map points (strokes (GLCanvas_init dw dh))))
      by constructor.
    revert Hno Hinit. generalize (GLCanvas_init dw dh).
    induction es as [| e es IH]; intros c0 Hno Hinit; simpl; [exact Hinit |].
    simpl in Hno. apply andb_prop in Hno as [He Hes].
    apply IH; [exact Hes |]. apply step_two_points; [| exact Hinit].
    now destruct (is_import e). }
  rewrite Forall_map in Hc. split; [exact Hc |].
  intros highlight. unfold draw_canvas.
  destruct (draw_strokes_total highlight (strokes c)) with (idx := 0%nat)
    (pen := (0, 0, 0, 255)%Z) as [[calls pen] ->].
  - eapply Forall_impl; [| exact Hc]. simpl. intros s Hs Hnil.
    rewrite Hnil in Hs. simpl in Hs. lia.
  - destruct (current_points c) as [| [[x y] p] ps]; now eexists.
Qed.

Lemma draw_never_fails_without_import_witness :
  exists calls,
    draw_canvas [] (run retiring_session (GLCanvas_init 2 2)) = Some calls.
Proof.
  exact (proj2 (draw_never_fails_without_import 2 2 retiring_session eq_refl)
               []).
Defined.

(** With imports the guarantee is lost: a snapshot may hold a stroke
    without points, and painting it fails. *)
Example imported_empty_stroke_breaks_drawing :
  exists c',
    import_strokes_json
      (Text (JObj [("strokes",
                    JArr [JObj [("points", JArr []);
                                ("width", JNum 6.0);
                                ("color", JArr [JNum 0; JNum 0; JNum 0]);
                                ("time_created", JNum 0.0)]])]%string))
      (GLCanvas_init 128 96) = Returned c' /\
    draw_canvas [] c' = None.
Proof.
  eexists. split; [reflexivity |].
  unfold draw_canvas. simpl.
  destruct (Rlt_dec 1.0 0.01); [lra | reflexivity].
Qed.

Lemma stroke_path_shape_witness :
  length [MoveTo 0 0; QuadTo 1 1 ((1 + 2) / 2) ((1 + 2) / 2)] = Nat.max 1 2.
Proof.
  apply (proj2 (proj2 (proj2 stroke_path_shape)) (0, 0, 1.0)
               [(1, 1, 1.0); (2, 2, 1.0)]).
  reflexivity.
Defined.

(** ** The feedback loop *)

Lemma gain_monotone (t h d1 d2 : R) :
  d1 <= d2 ->
  (if Rlt_dec (Rabs (d1 - t)) h then 0.0 else d1 - t)
  <= (if Rlt_dec (Rabs (d2 - t)) h then 0.0 else d2 - t).
Proof.
  intros Hle.
  destruct (Rlt_dec (Rabs (d1 - t)) h) as [H1 | H1];
    destruct (Rlt_dec (Rabs (d2 - t)) h) as [H2 | H2];
    unfold Rabs in H1, H2;
    destruct (Rcase_abs (d1 - t)); destruct (Rcase_abs (d2 - t)); lra.
Qed.

Lemma clamp_monotone (x y : R) :
  x <= y -> py_max 0.1 (py_min 4.0 x) <= py_max 0.1 (py_min 4.0 y).
Proof.
  intros Hle. unfold py_max, py_min. repeat case_Rlt; lra.
Qed.

(** X21: with a non-negative gain the controller is monotone: a denser
    canvas never gets a smaller factor; and for a non-negative decay base
    every visible stroke then gets, at the same time, an alpha that is no
    larger.  Above the dead zone the factor is above 1, below it below 1
    (positive gain). *)
Theorem denser_fades_faster (c : GLCanvas) (d1 d2 : R) :
  0 <= lambda_k c -> 0 <= lambda_base c -> d1 <= d2 ->
  lambdas_factor (controller_update d1 c)
  <= lambdas_factor (controller_update d2 c) /\
  (forall now s,
      is_visible s = true ->
      base_alpha (decay_stroke (controller_update d2 c) now s)
      <= base_alpha (decay_stroke (controller_update d1 c) now s)) /\
  (0 < lambda_k c -> 0 <= hysteresis c ->
   hysteresis c <= d2 - target_density c -> d2 <> target_density c ->
   1 < lambdas_factor (controller_update d2 c)) /\
  (0 < lambda_k c -> 0 <= hysteresis c ->
   d1 - target_density c <= - hysteresis c -> d1 <> target_density c ->
   lambdas_factor (controller_update d1 c) < 1).
Proof.
  intros Hk Hbase Hle.
  assert (Hmono : lambdas_factor (controller_update d1 c)
                  <= lambdas_factor (controller_update d2 c)).
  { rewrite !controller_update_factor. apply clamp_monotone.
    pose proof (gain_monotone (target_density c) (hysteresis c) d1 d2 Hle).
    nra. }
  split; [exact Hmono |]. split; [| split].
  - intros now s Hvis.
    set (k1 := controller_update d1 c) in *.
    set (k2 := controller_update d2 c) in *.
    assert (Hb1 : lambda_base k1 = lambda_base c) by reflexivity.
    assert (Hb2 : lambda_base k2 = lambda_base c) by reflexivity.
    assert (Hf1 : 0.1 <= lambdas_factor k1)
      by (unfold k1; rewrite controller_update_factor; apply clamp_range).
    clearbody k1 k2.
    assert (Hrate : lambda_base k1 * lambdas_factor k1
                    <= lambda_base k2 * lambdas_factor k2)
      by (rewrite Hb1, Hb2; nra).
    destruct (decay_stroke_visible_cases k1 now s Hvis)
      as [[Hneg ->] | [(Hage & Hlow & ->) | (Hage & Hhigh & ->)]];
      destruct (decay_stroke_visible_cases k2 now s Hvis)
        as [[Hneg' ->] | [(Hage' & Hlow' & ->) | (Hage' & Hhigh' & ->)]];
      simpl; try lra.
    + exfalso.
      assert (exp (- (lambda_base k2 * lambdas_factor k2)
                   * (now - time_created s))
              <= exp (- (lambda_base k1 * lambdas_factor k1)
                      * (now - time_created s))); [| lra].
      apply exp_le_mono. nra.
    + apply exp_le_mono. nra.
  - intros Hkpos Hh Habove Hne. rewrite controller_update_factor.
    assert (Hpush : 0 < lambda_k c * (d2 - target_density c)) by nra.
    unfold py_max, py_min. repeat case_Rlt; case_Rabs; lra.
  - intros Hkpos Hh Hbelow Hne. rewrite controller_update_factor.
    assert (Hpull : lambda_k c * (d1 - target_density c) < 0) by nra.
    unfold py_max, py_min. repeat case_Rlt; case_Rabs; lra.
Qed.

Lemma denser_fades_faster_witness :
  lambdas_factor (controller_update 0.01 (GLCanvas_init 128 96))
  <= lambdas_factor (controller_update 0.5 (GLCanvas_init 128 96)) /\
  1 < lambdas_factor (controller_update 0.5 (GLCanvas_init 128 96)).
Proof.
  destruct (denser_fades_faster (GLCanvas_init 128 96) 0.01 0.5)
    as (Hmono & _ & Habove & _); try (simpl; lra).
  split; [exact Hmono |].
  apply Habove; simpl; lra.
Defined.

Lemma exp_neg_large (x : R) : x <= 6 -> 0.001 <= exp (- x).
Proof.
  intros Hx.
  pose proof exp_le_3 as H3. pose proof (exp_pos 1) as Hpos.
  assert (H2 : exp 1 * exp 1 <= 9) by nra.
  assert (H3' : exp 1 * exp 1 * exp 1 <= 27) by nra.
  assert (H6 : exp 6 <= 729).
  { replace 6 with ((1 + 1 + 1) + (1 + 1 + 1)) by lra.
    rewrite !exp_plus.
    assert (Ha : 0 < exp 1 * exp 1 * exp 1).
    { repeat apply Rmult_lt_0_compat; exact Hpos. }
    set (a := exp 1 * exp 1 * exp 1) in *. clearbody a. nra. }
  assert (Hle : exp x <= 729) by (pose proof (exp_le_mono x 6 Hx); lra).
  pose proof (exp_pos x) as Hxpos.
  rewrite exp_Ropp.
  apply Rle_trans with (/ 729); [lra |].
  apply Rinv_le_contravar; assumption.
Qed.

(** X22: how long a stroke lasts, whatever the density: on a canvas the
    program can reach (with a non-empty density texture), a completed
    frame retires every stroke that is at least 240 time units old, and
    never retires a stroke in play that is at most 15 units old. *)
Theorem stroke_lifetime (gpu : rasteriser) (cw ch : Z) (c c' : GLCanvas)
    (i : nat) (s : Stroke) :
  reachable c ->
  (0 < density_h c * density_w c)%nat ->
  paintEvent gpu cw ch c = Returned c' ->
  nth_error (strokes c) i = Some s ->
  let age := virtual_time c - time_created s in
  exists s',
    nth_error (strokes c') i = Some s' /\
    (240 <= age -> is_visible s' = false /\ base_alpha s' = 0) /\
    (0 <= age <= 15 ->
     is_visible s = true \/ virtual_time c < last_virtual_time c ->
     is_visible s' = true /\ 0.001 <= base_alpha s').
Proof.
  intros Hreach Hcells Hpaint Hnth age.
  pose proof (reachable_invariant c Hreach) as Hinv.
  pose proof (reachable_constants c Hreach) as [= Ht Hh Hbase Hk].
  destruct (paintEvent_returned _ _ _ _ _ Hpaint) as (d & Hmap & Hstrokes & _).
  set (c1 := rewind_check c) in *.
  assert (Hsame : density_h c1 = density_h c /\ density_w c1 = density_w c /\
                  target_density c1 = target_density c /\
                  hysteresis c1 = hysteresis c /\
                  lambda_k c1 = lambda_k c /\ lambda_base c1 = lambda_base c).
  { unfold c1. destruct (rewind_check_frame c) as [-> | [_ ->]];
      repeat split. }
  destruct Hsame as (Hdh & Hdw & Ht1 & Hh1 & Hk1 & Hb1).
  assert (Hd : 0 <= global_density d <= 1).
  { apply (render_density_map_unit gpu cw ch c1); [| exact Hmap].
    now rewrite Hdh, Hdw. }
  set (k := controller_update (global_density d) c1) in *.
  assert (Hfloor : 0.85 <= lambdas_factor k).
  { apply factor_floor; try lra; congruence. }
  assert (Hceil : lambdas_factor k <= 4.0).
  { unfold k. rewrite controller_update_factor. apply clamp_range. }
  assert (Hkb : lambda_base k = 0.1) by (unfold k; simpl; congruence).
  clearbody k.
  assert (Hold : forall s0, is_visible s0 = true ->
                            time_created s0 = time_created s ->
                            240 <= age ->
                            decay_stroke k (virtual_time c) s0
                            = set_is_visible false (set_base_alpha 0.0 s0)).
  { intros s0 Hv0 Ht0 Hage. apply decay_stroke_old; trivial;
      rewrite Ht0; fold age; [lra |]. rewrite Hkb. nra. }
  assert (Hyoung : forall s0, is_visible s0 = true ->
                              time_created s0 = time_created s ->
                              0 <= age <= 15 ->
                              is_visible (decay_stroke k (virtual_time c) s0)
                              = true /\
                              0.001 <= base_alpha
                                         (decay_stroke k (virtual_time c) s0)).
  { intros s0 Hv0 Ht0 Hage.
    assert (Hbig : 0.001 <= exp (- (lambda_base k * lambdas_factor k)
                                 * (virtual_time c - time_created s0))).
    { rewrite <- Ropp_mult_distr_l. apply exp_neg_large.
      rewrite Ht0, Hkb. fold age. nra. }
    destruct (decay_stroke_visible_cases k (virtual_time c) s0 Hv0)
      as [[Hneg _] | [(_ & Hlow & _) | (_ & _ & ->)]].
    - rewrite Ht0 in Hneg. fold age in Hneg. lra.
    - lra.
    - simpl. now split. }
  unfold c1 in Hstrokes.
  destruct (rewind_check_frame c) as [Heq | [Hback Heq]]; rewrite Heq in Hstrokes.
  - exists (decay_stroke k (virtual_time c) s). split.
    + now rewrite Hstrokes, nth_error_map, Hnth.
    + split.
      * intros Hage. destruct (is_visible s) eqn:Hvis.
        -- rewrite Hold by trivial. simpl. split; [reflexivity | lra].
        -- unfold retired_in_the_past in Hinv. rewrite Forall_forall in Hinv.
           destruct (Hinv s (nth_error_In _ _ Hnth) Hvis) as [_ Hzero].
           unfold decay_stroke. rewrite Hvis. simpl. now split.
      * intros Hage [Hvis | Hback].
        -- now apply Hyoung.
        -- unfold rewind_check in Heq.
           destruct (Rlt_dec _ _) as [_ | Hn]; [| contradiction].
           apply (f_equal strokes) in Heq. simpl in Heq.
           assert (Hs : nth_error (map (set_is_visible true) (strokes c)) i
                        = Some (set_is_visible true s))
             by now rewrite nth_error_map, Hnth.
           rewrite Heq, Hnth in Hs. injection Hs as Hs.
           apply Hyoung; trivial. now rewrite Hs.
  - exists (decay_stroke k (virtual_time c) (set_is_visible true s)). split.
    + simpl in Hstrokes. now rewrite Hstrokes, !nth_error_map, Hnth.
    + split.
      * intros Hage. rewrite Hold by trivial. simpl.
        split; [reflexivity | lra].
      * intros Hage _. now apply Hyoung.
Qed.

Lemma stroke_lifetime_witness :
  exists c' s',
    paintEvent half_covered 800 600
      (run (firstn 4 retiring_session) (GLCanvas_init 2 2)) = Returned c' /\
    nth_error (strokes c') 0 = Some s' /\
    is_visible s' = false /\ base_alpha s' = 0.
Proof.
  destruct (paintEvent_total half_covered 800 600
              (run (firstn 4 retiring_session) (GLCanvas_init 2 2)))
    as [c' Hpaint]; [lia | lia |].
  destruct (stroke_lifetime half_covered 800 600
              (run (firstn 4 retiring_session) (GLCanvas_init 2 2)) c' 0
              (sample_stroke 0.0)) as (s' & Hnth & Hold & _).
  - now exists 2%nat, 2%nat, (firstn 4 retiring_session).
  - rewrite retiring_session_before_frame. simpl. lia.
  - exact Hpaint.
  - now rewrite retiring_session_before_frame.
  - exists c', s'. split; [exact Hpaint |]. split; [exact Hnth |].
    apply Hold. rewrite retiring_session_before_frame. simpl.
    unfold timeline_max. lra.
Defined.
